(** * apache_beam/transforms/util.py: simple utility PTransforms

    A shallow embedding of [CoGroupByKey], [Keys], [Values], [KvSwap] and
    [RemoveDuplicates], and the properties their documentation promises.

    Conventions of the embedding.
    - A PCollection is the pipeline that owns it and the list of its
      elements, in the order the runner happens to hold them; a
      transform is a function on the elements.
    - Python objects that are mutated after they are shared (the lists
      appended to by [_merge_tagged_vals_under_key]) live in an explicit
      heap; a container holds references into it.
    - Code that allocates, mutates or raises is a term of the monad [M],
      a tree of atomic steps on the heap; [exec] runs such a term alone,
      [interleave] runs several of them on one heap, step by step.
    - Step labels ([label >> transform], ['pair_with_%s' % tag]) name the
      nodes of the pipeline graph and carry no data; they are left out. *)

From stdpp Require Import gmap strings list fin_maps.
From Stdlib Require Import ZArith.

Local Open Scope Z_scope.
Local Open Scope nat_scope.

(** ** Python values that reach this file *)

(** The exceptions the modelled code can raise. *)
Inductive exn : Type :=
  | ValueError | TypeError | AttributeError | TransformError
  | AssertionError | KeyError | IndexError | SystemError.

Global Instance exn_eq_dec : EqDecision exn.
Proof. solve_decision. Defined.

(** Outcome of a computation that may raise. *)
Inductive result (A : Type) : Type :=
  | Ok (a : A)
  | Raise (e : exn).
Arguments Ok {A} a.
Arguments Raise {A} e.

Global Instance result_eq_dec {A} `{EqDecision A} : EqDecision (result A).
Proof. solve_decision. Defined.

(** A value passed as a keyword argument: [None], a bool, an int, a str or
    a Pipeline object (known by its identity). *)
Inductive pyobj : Type :=
  | PyNone
  | PyBool (b : bool)
  | PyInt (z : Z)
  | PyStr (s : string)
  | PyPipeline (id : nat).

Global Instance pyobj_eq_dec : EqDecision pyobj.
Proof. solve_decision. Defined.

(** Python truth value, as tested by [if self.pipeline:]. *)
Definition truthy (o : pyobj) : bool :=
  match o with
  | PyNone => false
  | PyBool b => b
  | PyInt z => negb (Z.eqb z 0)
  | PyStr s => negb (String.eqb s "")
  | PyPipeline _ => true
  end.

(** A tag names one input of a co-group: a dict key such as ['pc1'] or
    [33333], or the position of the input in a sequence. *)
Inductive tag : Type :=
  | TagInt (i : Z)
  | TagStr (s : string).

Global Instance tag_eq_dec : EqDecision tag.
Proof. solve_decision. Defined.

Global Instance tag_countable : Countable tag.
Proof.
  refine (inj_countable'
    (λ t, match t with TagInt i => inl i | TagStr s => inr s end)
    (λ x, match x with inl i => TagInt i | inr s => TagStr s end) _).
  by intros [].
Defined.

(** ** The heap of Python lists, and the monad of code that uses it *)

(** A location is the address of a list object. *)
Abbreviation loc := nat.

(** The heap: the list objects allocated so far, by address. *)
Abbreviation heap V := (list (list V)).

(** Code that allocates lists, appends to them and may raise: a tree of
    atomic steps. [NewList k] evaluates [[]] and goes on as [k] of the
    new list; [Append l value k] does [l.append(value)] and goes on as
    [k]. *)
Inductive M (V A : Type) : Type :=
  | Return (a : A)
  | Throw (e : exn)
  | NewList (k : loc → M V A)
  | Append (l : loc) (value : V) (k : M V A).
Arguments Return {V A} a.
Arguments Throw {V A} e.
Arguments NewList {V A} k.
Arguments Append {V A} l value k.

Section Heap.
Context {V : Type}.

Definition ret {A} (a : A) : M V A := Return a.

Fixpoint bind {A B} (m : M V A) (f : A → M V B) : M V B :=
  match m with
  | Return a => f a
  | Throw e => Throw e
  | NewList k => NewList (λ l, bind (k l) f)
  | Append l value k => Append l value (bind k f)
  end.

Definition raise {A} (e : exn) : M V A := Throw e.

(** A computation without effect on the heap that may raise. *)
Definition lift {A} (r : result A) : M V A :=
  match r with Ok a => Return a | Raise e => Throw e end.

(** The expression [[]]: a new, empty list object. *)
Definition new_list : M V loc := NewList Return.

(** [l.append(value)] on the list object at [l]. *)
Definition list_append (l : loc) (value : V) : M V unit :=
  Append l value (Return tt).

(** [assert cond]. *)
Definition py_assert (cond : bool) : M V unit :=
  if cond then ret tt else raise AssertionError.

(** [for x in l: body(x)]. *)
Fixpoint for_each {A} (l : list A) (body : A → M V unit) : M V unit :=
  match l with
  | [] => ret tt
  | x :: l' => bind (body x) (λ _, for_each l' body)
  end.

(** [[f(x) for x in l]], evaluated left to right. *)
Fixpoint traverse {A B} (f : A → M V B) (l : list A) : M V (list B) :=
  match l with
  | [] => ret []
  | x :: l' => bind (f x) (λ y, bind (traverse f l') (λ ys, ret (y :: ys)))
  end.

(** One atomic step on the heap. A new list takes the next free
    address. A reference to an object that was never allocated cannot
    exist in Python; the model reports it as [SystemError]. *)
Definition step {A} (m : M V A) (h : heap V) : M V A * heap V :=
  match m with
  | Return a => (Return a, h)
  | Throw e => (Throw e, h)
  | NewList k => (k (length h), h ++ [[]])
  | Append l value k =>
      match h !! l with
      | Some vs => (k, <[l := vs ++ [value]]> h)
      | None => (Throw SystemError, h)
      end
  end.

(** A computation run to its end, alone on the heap. *)
Fixpoint exec {A} (m : M V A) (h : heap V) : result (A * heap V) :=
  match m with
  | Return a => Ok (a, h)
  | Throw e => Raise e
  | NewList k => exec (k (length h)) (h ++ [[]])
  | Append l value k =>
      match h !! l with
      | Some vs => exec k (<[l := vs ++ [value]]> h)
      | None => Raise SystemError
      end
  end.

(** Several computations on one heap, their steps interleaved: the
    schedule names, step by step, the computation that moves. *)
Fixpoint interleave {A} (schedule : list nat) (tasks : list (M V A))
    (h : heap V) : list (M V A) * heap V :=
  match schedule with
  | [] => (tasks, h)
  | i :: schedule' =>
      match tasks !! i with
      | Some m =>
          let '(m', h') := step m h in
          interleave schedule' (<[i := m']> tasks) h'
      | None => interleave schedule' tasks h
      end
  end.
End Heap.

Declare Scope M_scope.
Delimit Scope M_scope with M.
Notation "'let*' x ':=' m 'in' k" := (bind m (λ x, k))
  (at level 10, x pattern, m at level 100, k at level 200) : M_scope.
Notation "m ';;' k" := (bind m (λ _, k))
  (at level 100, k at level 200, right associativity) : M_scope.

(** ** Result containers *)

(** The value of an output row while it is being filled: a dict from tags
    to list objects, or a tuple of list objects. Neither the dict nor the
    tuple is modified once built; only the lists they refer to are. *)
Inductive container : Type :=
  | Dict (d : gmap tag loc)
  | Tuple (t : list loc).

(** [t[i]] on a tuple: a negative index counts from the end. *)
Definition tuple_getitem {A} (t : list A) (i : Z) : result A :=
  let n := Z.of_nat (length t) in
  let j := if Z.ltb i 0 then Z.add i n else i in
  if Z.ltb j 0 then Raise IndexError
  else match t !! Z.to_nat j with
       | Some x => Ok x
       | None => Raise IndexError
       end.

(** [result_value[tag]]: dict lookup or tuple indexing, by the run-time
    type of [result_value]. *)
Definition getitem (result_value : container) (tg : tag) : result loc :=
  match result_value with
  | Dict d =>
      match d !! tg with
      | Some l => Ok l
      | None => Raise KeyError
      end
  | Tuple t =>
      match tg with
      | TagInt i => tuple_getitem t i
      | TagStr _ => Raise TypeError
      end
  end.

(** A container as a consumer of the output reads it: every reference
    replaced by the current content of the list it points to. *)
Inductive value (V : Type) : Type :=
  | VDict (d : gmap tag (list V))
  | VTuple (t : list (list V)).
Arguments VDict {V} d.
Arguments VTuple {V} t.

Definition snapshot {V} (h : heap V) (c : container) : value V :=
  match c with
  | Dict d => VDict (omap (λ l, h !! l) d)
  | Tuple t => VTuple (omap (λ l, h !! l) t)
  end.

(** The list objects a container refers to. *)
Definition container_locs (c : container) : list loc :=
  match c with
  | Dict d => (map_to_list d).*2
  | Tuple t => t
  end.

(** ** Collections and the primitives of the engine *)

Module PCollection.
(** A PCollection: the pipeline that owns it and its elements. *)
Record t (T : Type) : Type := { pipeline : nat; elements : list T }.
Arguments pipeline {T} _.
Arguments elements {T} _.
End PCollection.

(** What a caller may pass where a PCollection is expected. *)
Inductive pvalue (T : Type) : Type :=
  | PColl (pcoll : PCollection.t T)
  | NotPColl.
Arguments PColl {T} pcoll.
Arguments NotPColl {T}.

(** The argument of [CoGroupByKey]: a dict from tags to PCollections, or a
    tuple or list of PCollections. *)
Inductive pvalueish (T : Type) : Type :=
  | Mapping (m : gmap tag (pvalue T))
  | Sequence (l : list (pvalue T)).
Arguments Mapping {T} m.
Arguments Sequence {T} l.

Section Primitives.
Context {V : Type}.

(** Modelled from the spec: [Map] of transforms/core.py lives outside
    this file. Section 6: [ElementwiseMap(collection, fn, closure-args)
    -> collection]; the closure arguments are bound by the caller's
    lambda. *)
Definition Map {A B} (fn : A → B) (pcoll : list A) : list B :=
  map fn pcoll.

(** Modelled from the spec: [Map] again, of a function that allocates
    and mutates Python objects; the elements are processed one after the
    other on one heap. *)
Definition MapM {A B} (fn : A → M V B) (pcoll : list A) : M V (list B) :=
  traverse fn pcoll.

(** Modelled from the spec: [Flatten] of transforms/core.py, and the
    application of a transform to a list of collections, live outside
    this file. Section 4.3: concatenates all collections into a single
    one. Sections 3 and 4.1: all collections must belong to the same
    execution context, and to the one the caller supplied if there is
    one; this is validated, a mismatch is an error. The docstring of
    CoGroupByKey: without inputs the [pipeline] argument is the only
    source of the context. The context is [pipeline] if it is truthy,
    the pipeline of the first collection otherwise; an object that is
    no Pipeline has none of a pipeline's attributes. *)
Definition Flatten {A} (pipeline : pyobj) (pcolls : list (PCollection.t A))
  : result (PCollection.t A) :=
  match pcolls with
  | [] =>
      match pipeline with
      | PyNone => Raise ValueError
      | PyPipeline p =>
          Ok {| PCollection.pipeline := p; PCollection.elements := [] |}
      | _ => Raise AttributeError
      end
  | pc :: _ =>
      let p := if truthy pipeline then pipeline
               else PyPipeline (PCollection.pipeline pc) in
      if forallb (λ pp, bool_decide (PyPipeline (PCollection.pipeline pp) = p))
                 pcolls
      then Ok {| PCollection.pipeline := PCollection.pipeline pc;
                 PCollection.elements
                   := concat (PCollection.elements <$> pcolls) |}
      else Raise ValueError
  end.

(** [pcoll.pipeline]. *)
Definition getattr_pipeline {T} (pcoll : pvalue T) : M V pyobj :=
  match pcoll with
  | PColl pc => ret (PyPipeline (PCollection.pipeline pc))
  | NotPColl => raise AttributeError
  end.

(** Modelled from the spec: [PTransform._check_pcollection] of
    transforms/ptransform.py lives outside this file. Section 7, type
    error: an input that is not a collection is refused at construction
    time. *)
Definition _check_pcollection {T} (pcoll : pvalue T) : M V unit :=
  match pcoll with
  | PColl _ => ret tt
  | NotPColl => raise TransformError
  end.

(** [pcoll | transform]: only a PCollection can be piped into a
    transform; what comes out belongs to the pipeline of [pcoll]. *)
Definition pipe {T B} (pcoll : pvalue T) (transform : list T → list B)
  : M V (PCollection.t B) :=
  match pcoll with
  | PColl pc =>
      ret {| PCollection.pipeline := PCollection.pipeline pc;
             PCollection.elements := transform (PCollection.elements pc) |}
  | NotPColl => raise TypeError
  end.
End Primitives.

Section Grouping.
Context {K : Type} `{EqDecision K}.

(** One element arrives at the grouper: it joins the group of its key,
    or opens a new group behind the existing ones. *)
Fixpoint group_add {X} (k : K) (x : X) (groups : list (K * list X))
  : list (K * list X) :=
  match groups with
  | [] => [(k, [x])]
  | (k', xs) :: groups' =>
      if decide (k = k') then (k', xs ++ [x]) :: groups'
      else (k', xs) :: group_add k x groups'
  end.

(** Modelled from the spec: [GroupByKey] of transforms/core.py lives
    outside this file. Section 4.4: groups the collection by key,
    yielding (key, sequence of values) for every distinct key present.
    The contract leaves the order of a sequence open; the model keeps
    the order of arrival, the order Section 8 expects ('y' before
    'z'). *)
Definition GroupByKey {X} (pcoll : list (K * X)) : list (K * list X) :=
  foldl (λ groups kv, group_add kv.1 kv.2 groups) [] pcoll.

(** Modelled from the spec: [CombinePerKey] of transforms/core.py lives
    outside this file. Section 4.6: per-key-reduces all values for a key
    to a single value. *)
Definition CombinePerKey {X Y} (fn : list X → Y) (pcoll : list (K * X))
  : list (K * Y) :=
  Map (λ kvs, (kvs.1, fn kvs.2)) (GroupByKey pcoll).
End Grouping.

(** ** class CoGroupByKey *)

Module CoGroupByKey.

(** The state of an instance: [self.pipeline]. *)
Record t : Type := { pipeline : pyobj }.

(** [__init__(self, **kwargs)]. The call to the base-class constructor
    only sets the label. *)
Definition __init__ (kwargs : gmap string pyobj) : result t :=
  let pipeline := default PyNone (kwargs !! "pipeline") in
  let kwargs := delete "pipeline" kwargs in
  if decide (kwargs = ∅) then Ok {| pipeline := pipeline |}
  else Raise ValueError.

(** [_extract_input_pvalues]: the argument as it is, and the inputs it
    holds; a dict answers [viewvalues], anything else is iterated. *)
Definition _extract_input_pvalues {T}
  : pvalueish T → pvalueish T * list (pvalue T) :=
  λ pvalueish,
    match pvalueish with
    | Mapping m => (pvalueish, (map_to_list m).*2)
    | Sequence l =>
        let pcolls := l in
        (Sequence pcolls, pcolls)
    end.

Section Expand.
Context {K V : Type} `{EqDecision K}.
Local Open Scope M_scope.

Definition _pair_tag_with_value (key_value : K * V) (tg : tag)
  : K * (tag * V) :=
  let '(key, value) := key_value in (key, (tg, value)).

(** The loop [for tag, value in grouped:
    result_value[tag].append(value)]. *)
Definition fill (result_value : container) (grouped : list (tag * V))
  : M V unit :=
  for_each grouped (λ '(tg, value),
    let* l := lift (getitem result_value tg) in
    list_append l value).

Definition _merge_tagged_vals_under_key {Arg : Type}
    (key_grouped : K * list (tag * V))
    (result_ctor : Arg → M V container) (result_ctor_arg : Arg)
  : M V (K * container) :=
  let '(key, grouped) := key_grouped in
  let* result_value := result_ctor result_ctor_arg in
  fill result_value grouped ;;
  ret (key, result_value).

(** [dict((tag, []) for tag in tags)], the dict seeded with [d]: a
    new list for each tag, a later pair replacing an earlier one with
    the same tag. *)
Fixpoint dict_of_tags (tags : list tag) (d : gmap tag loc)
  : M V (gmap tag loc) :=
  match tags with
  | [] => ret d
  | tg :: tags' =>
      let* l := new_list in dict_of_tags tags' (<[tg := l]> d)
  end.

(** [lambda tags: dict((tag, []) for tag in tags)]. *)
Definition result_ctor_dict (tags : list tag) : M V container :=
  let* d := dict_of_tags tags ∅ in ret (Dict d).

(** [tuple([] for _ in xrange(size))]. *)
Fixpoint tuple_of_size (size : nat) : M V (list loc) :=
  match size with
  | O => ret []
  | S size' =>
      let* l := new_list in
      let* t := tuple_of_size size' in
      ret (l :: t)
  end.

(** [lambda size: tuple([] for _ in xrange(size))]. *)
Definition result_ctor_tuple (size : nat) : M V container :=
  let* t := tuple_of_size size in ret (Tuple t).

(** [list(enumerate(pcolls))]. *)
Definition enumerate {A} (l : list A) : list (tag * A) :=
  imap (λ i x, (TagInt (Z.of_nat i), x)) l.

(** The loop that checks the inputs for PCollection-ness and for
    belonging to the pipeline of the transform. *)
Fixpoint check_inputs {T} (self : t) (pcolls : list (tag * pvalue T))
  : M V unit :=
  match pcolls with
  | [] => ret tt
  | (_, pcoll) :: pcolls' =>
      _check_pcollection pcoll ;;
      (if truthy (pipeline self) then
         let* p := getattr_pipeline pcoll in
         py_assert (bool_decide (p = pipeline self))
       else ret tt) ;;
      check_inputs self pcolls'
  end.

(** The general-purpose code of [expand], below the [try]: the inputs
    are (tag, pcoll) pairs by now. The rows returned are the elements
    of the output collection, which belongs to the pipeline of the
    union. *)
Definition expand_tagged {Arg : Type} (self : t)
    (pcolls : list (tag * pvalue (K * V)))
    (result_ctor : Arg → M V container) (result_ctor_arg : Arg)
  : M V (list (K * container)) :=
  check_inputs self pcolls ;;
  let* paired := traverse (λ '(tg, pcoll),
    pipe pcoll (Map (λ key_value, _pair_tag_with_value key_value tg)))
    pcolls in
  let* union := lift (Flatten (pipeline self) paired) in
  MapM (λ key_grouped,
          _merge_tagged_vals_under_key key_grouped
            result_ctor result_ctor_arg)
       (GroupByKey (PCollection.elements union)).

(** [expand(self, pcolls)]: the [try] branch serves a dict, the
    [except AttributeError] branch a list or tuple. *)
Definition expand (self : t) (pcolls : pvalueish (K * V))
  : M V (list (K * container)) :=
  match pcolls with
  | Mapping m =>
      let result_ctor_arg := (map_to_list m).*1 in
      let pcolls := map_to_list m in
      expand_tagged self pcolls result_ctor_dict result_ctor_arg
  | Sequence l =>
      let pcolls := enumerate l in
      let result_ctor_arg := length pcolls in
      expand_tagged self pcolls result_ctor_tuple result_ctor_arg
  end.
End Expand.
End CoGroupByKey.

(** ** Keys, Values, KvSwap, RemoveDuplicates *)

Definition Keys {A B} : list (A * B) → list A :=
  Map (λ k_v, k_v.1).

Definition Values {A B} : list (A * B) → list B :=
  Map (λ k_v1, k_v1.2).

Definition KvSwap {A B} : list (A * B) → list (B * A) :=
  Map (λ k_v2, (k_v2.2, k_v2.1)).

(** [None] is the only value the pairs of [RemoveDuplicates] carry; it is
    modelled by [tt]. *)
Definition RemoveDuplicates {T} `{EqDecision T} (pcoll : list T) : list T :=
  Keys (CombinePerKey (λ vs : list unit, tt) (Map (λ v, (v, tt)) pcoll)).

(** ** What the output is expected to hold *)

(** What the loop of [_merge_tagged_vals_under_key] appends to the list
    at [l]: the values whose tag selects [l]. *)
Definition appended {V} (c : container) (l : loc) (grouped : list (tag * V))
  : list V :=
  (filter (λ tv, getitem c tv.1 = Ok l) grouped).*2.

(** The values carried by tag [tg] in a grouped row, in the order of the
    row. *)
Definition values_of {V} (tg : tag) (grouped : list (tag * V)) : list V :=
  (filter (λ tv, tv.1 = tg) grouped).*2.

(** The values under key [k] in a collection, in the order of the
    collection. *)
Definition values_under {K V} `{EqDecision K} (k : K) (pcoll : list (K * V))
  : list V :=
  (filter (λ kv, kv.1 = k) pcoll).*2.

(** The elements of an input; a non-collection has none. *)
Definition elements_of {T} (pcoll : pvalue T) : list T :=
  match pcoll with
  | PColl pc => PCollection.elements pc
  | NotPColl => []
  end.

Definition is_pcoll {T} (pcoll : pvalue T) : bool :=
  match pcoll with PColl _ => true | NotPColl => false end.

(** The container Section 4.5 promises for a grouped row of a mapping
    input: every tag of the input, bound to the values the row carries
    for it. *)
Definition merged_dict {V} (tags : list tag) (grouped : list (tag * V))
  : value V :=
  VDict (list_to_map ((λ tg, (tg, values_of tg grouped)) <$> tags)).

(** The container Section 4.5 promises for a grouped row of a sequence
    input of [size] collections: slot [i] holds the values the row
    carries for position [i]. *)
Definition merged_tuple {V} (size : nat) (grouped : list (tag * V))
  : value V :=
  VTuple ((λ i, values_of (TagInt (Z.of_nat i)) grouped) <$> seq 0 size).

(** A run from heap [h] produced the row [(key, c)] on lists of its own:
    the heap only grew, the container reads as [val], and the lists it
    refers to are new and distinct. *)
Definition fresh_row {K V} (h : heap V) (key : K) (val : value V)
    (r : result ((K * container) * heap V)) : Prop :=
  ∃ c ext,
    r = Ok ((key, c), h ++ ext)
    ∧ snapshot (h ++ ext) c = val
    ∧ Forall (λ l, length h ≤ l < length h + length ext) (container_locs c)
    ∧ NoDup (container_locs c).

(** A tag of a sequence input of [size] collections: a position. *)
Definition position_tag (size : nat) (tg : tag) : Prop :=
  ∃ i, tg = TagInt (Z.of_nat i) ∧ i < size.

(** The two result constructors [expand] can hand to
    [_merge_tagged_vals_under_key], with their argument. *)
Inductive shape : Type :=
  | DictOf (tags : list tag)
  | TupleOf (size : nat).

(** The tag set fixed when the constructor is chosen: the keys of the
    mapping, or the positions [0 .. size-1]. *)
Definition valid_tag (s : shape) (tg : tag) : Prop :=
  match s with
  | DictOf tags => tg ∈ tags
  | TupleOf size => position_tag size tg
  end.

Definition merge_with {K V} (s : shape) (key_grouped : K * list (tag * V))
  : M V (K * container) :=
  match s with
  | DictOf tags =>
      CoGroupByKey._merge_tagged_vals_under_key key_grouped
        CoGroupByKey.result_ctor_dict tags
  | TupleOf size =>
      CoGroupByKey._merge_tagged_vals_under_key key_grouped
        CoGroupByKey.result_ctor_tuple size
  end.

Definition merged {V} (s : shape) (grouped : list (tag * V)) : value V :=
  match s with
  | DictOf tags => merged_dict tags grouped
  | TupleOf size => merged_tuple size grouped
  end.

(** The shape of a container: its tag set or its arity. *)
Definition has_shape {V} (s : shape) (val : value V) : Prop :=
  match s, val with
  | DictOf tags, VDict d => ∀ tg, is_Some (d !! tg) ↔ tg ∈ tags
  | TupleOf size, VTuple t => length t = size
  | _, _ => False
  end.

(** A container built for shape [s]: the dict has exactly the tags of
    [s], the tuple its arity. *)
Definition shaped (s : shape) (c : container) : Prop :=
  match s, c with
  | DictOf tags, Dict d => ∀ tg, is_Some (d !! tg) ↔ tg ∈ tags
  | TupleOf size, Tuple t => length t = size
  | _, _ => False
  end.

(** Ownership. [owns m σ Φ]: the computation [m], holding the lists [σ]
    as its own, reads and writes only them and the lists it allocates,
    never raises, and ends with a result and lists that satisfy [Φ];
    the address of a new list may be any address it does not hold yet. *)
Fixpoint owns {V A} (m : M V A) (σ : gmap loc (list V))
    (Φ : A → gmap loc (list V) → Prop) : Prop :=
  match m with
  | Return a => Φ a σ
  | Throw _ => False
  | NewList k => ∀ l, σ !! l = None → owns (k l) (<[l := []]> σ) Φ
  | Append l value k =>
      ∃ vs, σ !! l = Some vs ∧ owns k (<[l := vs ++ [value]]> σ) Φ
  end.

(** The container [c] has, for every valid tag, a list of its own in [σ]
    that holds [content tg]. *)
Definition holds {V} (s : shape) (c : container) (σ : gmap loc (list V))
    (content : tag → list V) : Prop :=
  shaped s c
  ∧ (∀ tg, valid_tag s tg →
       ∃ l, getitem c tg = Ok l ∧ σ !! l = Some (content tg))
  ∧ (∀ t1 t2 l, valid_tag s t1 → valid_tag s t2 →
       getitem c t1 = Ok l → getitem c t2 = Ok l → t1 = t2).

(** What a reconstructed row must be: the key of the grouped row, and a
    container that holds, tag by tag, the values of the grouped row. *)
Definition row_done {K V} (s : shape) (key_grouped : K * list (tag * V))
    (row : K * container) (σ : gmap loc (list V)) : Prop :=
  row.1 = key_grouped.1
  ∧ holds s row.2 σ (λ tg, values_of tg key_grouped.2).

(** The lists [σ] are in the heap [h], with the same content. *)
Definition within {V} (σ : gmap loc (list V)) (h : heap V) : Prop :=
  ∀ l vs, σ !! l = Some vs → h !! l = Some vs.

(** The computations of a pool own pairwise disjoint sets of lists of the
    heap, the [i]-th one on its way to [Φ i]. *)
Definition pool_owns {V A} (tasks : list (M V A))
    (Φ : nat → A → gmap loc (list V) → Prop) (h : heap V) : Prop :=
  ∃ σs : list (gmap loc (list V)),
    length σs = length tasks
    ∧ (∀ i m σ, tasks !! i = Some m → σs !! i = Some σ →
         owns m σ (Φ i) ∧ within σ h)
    ∧ (∀ i j σi σj l, i ≠ j → σs !! i = Some σi → σs !! j = Some σj →
         is_Some (σi !! l) → σj !! l = None).

(** The inputs of a co-group. *)
Definition inputs_of {T} (pcolls : pvalueish T) : list (pvalue T) :=
  (CoGroupByKey._extract_input_pvalues pcolls).2.

(** The keys that occur in some input collection. *)
Definition input_keys {K V} (pcolls : pvalueish (K * V)) : list K :=
  (inputs_of pcolls ≫= elements_of).*1.

(** The container the class docstring promises for key [k]: for every
    input, the values under [k] in that input. *)
Definition cogroup_value {K V} `{EqDecision K} (k : K)
    (pcolls : pvalueish (K * V)) : value V :=
  match pcolls with
  | Mapping m => VDict ((λ pcoll, values_under k (elements_of pcoll)) <$> m)
  | Sequence l => VTuple ((λ pcoll, values_under k (elements_of pcoll)) <$> l)
  end.

(** The elements of the union of the tag-paired inputs, as [expand]
    hands them to the grouper. *)
Definition tagged_union {K V} (pcolls : list (tag * pvalue (K * V)))
  : list (K * (tag * V)) :=
  concat (map (λ '(tg, pcoll),
                  Map (λ key_value,
                         CoGroupByKey._pair_tag_with_value key_value tg)
                      (elements_of pcoll)) pcolls).

(** The tag-paired collections [expand] hands to Flatten, one for every
    input that is a collection. *)
Definition paired_inputs {K V} (pcolls : list (tag * pvalue (K * V)))
  : list (PCollection.t (K * (tag * V))) :=
  omap (λ '(tg, pcoll),
          match pcoll with
          | PColl pc =>
              Some {| PCollection.pipeline := PCollection.pipeline pc;
                      PCollection.elements
                        := Map (λ key_value,
                                  CoGroupByKey._pair_tag_with_value
                                    key_value tg)
                               (PCollection.elements pc) |}
          | NotPColl => None
          end) pcolls.

(** The (tag, pcoll) pairs [expand] works on, and the constructor it
    picks, for either kind of input. *)
Definition tagged_inputs {T} (pcolls : pvalueish T) : list (tag * pvalue T) :=
  match pcolls with
  | Mapping m => map_to_list m
  | Sequence l => CoGroupByKey.enumerate l
  end.

Definition shape_of {T} (pcolls : pvalueish T) : shape :=
  match pcolls with
  | Mapping m => DictOf (map_to_list m).*1
  | Sequence l => TupleOf (length l)
  end.

(** The input registered under a tag, and the slot a container shows
    under a tag. *)
Definition input_at {T} (pcolls : pvalueish T) (tg : tag) : option (pvalue T) :=
  match pcolls, tg with
  | Mapping m, _ => m !! tg
  | Sequence l, TagInt i => if (0 <=? i)%Z then l !! Z.to_nat i else None
  | Sequence _, TagStr _ => None
  end.

Definition slot {V} (val : value V) (tg : tag) : option (list V) :=
  match val, tg with
  | VDict d, _ => d !! tg
  | VTuple t, TagInt i => if (0 <=? i)%Z then t !! Z.to_nat i else None
  | VTuple _, TagStr _ => None
  end.

(** The number of rows a collection of rows has for key [k]. *)
Definition rows_for {K C} `{EqDecision K} (k : K) (rows : list (K * C)) : nat :=
  length (filter (λ row, row.1 = k) rows).

(** An input passes the checks of [expand]: it is a PCollection, and it
    belongs to the pipeline of the transform when one was given. *)
Definition owned_by {T} (self : CoGroupByKey.t) (pcoll : pvalue T) : Prop :=
  match pcoll with
  | PColl pc =>
      truthy (CoGroupByKey.pipeline self) = true →
      PyPipeline (PCollection.pipeline pc) = CoGroupByKey.pipeline self
  | NotPColl => False
  end.

(** An input is a PCollection of another pipeline than the one given to
    the transform. *)
Definition foreign_to {T} (self : CoGroupByKey.t) (pcoll : pvalue T) : Prop :=
  match pcoll with
  | PColl pc =>
      PyPipeline (PCollection.pipeline pc) ≠ CoGroupByKey.pipeline self
  | NotPColl => False
  end.

Definition inputs_ok {T} (self : CoGroupByKey.t) (pcolls : pvalueish T)
  : Prop :=
  Forall (owned_by self) (inputs_of pcolls).

(** The pipeline an input belongs to; a non-collection has none. *)
Definition pipeline_of {T} (pcoll : pvalue T) : option nat :=
  match pcoll with
  | PColl pc => Some (PCollection.pipeline pc)
  | NotPColl => None
  end.

(** The inputs belong to one execution context [p]: every input is a
    collection of pipeline [p], and where there is no input, [p] is the
    pipeline given to the transform. *)
Definition one_context {T} (self : CoGroupByKey.t) (p : nat)
    (pcolls : list (pvalue T)) : Prop :=
  Forall (λ pcoll, pipeline_of pcoll = Some p) pcolls
  ∧ (pcolls = [] → CoGroupByKey.pipeline self = PyPipeline p).

(** The inputs of a co-group share an execution context. *)
Definition one_pipeline {T} (self : CoGroupByKey.t) (pcolls : pvalueish T)
  : Prop :=
  ∃ p, one_context self p (inputs_of pcolls).

(** ** Running the model on small inputs *)

Module Examples.
Import CoGroupByKey.

Definition self_none : t := {| pipeline := PyNone |}.

Definition pc (p : nat) (es : list (Z * string)) : pvalue (Z * string) :=
  PColl {| PCollection.pipeline := p; PCollection.elements := es |}.

(** Run a computation on the empty heap and read the rows back. *)
Definition run {K V} (m : M V (list (K * container)))
  : result (list (K * value V)) :=
  match exec m [] with
  | Ok (rows, h) => Ok (map (λ row, (row.1, snapshot h row.2)) rows)
  | Raise e => Raise e
  end.

Definition seq_input : pvalueish (Z * string) :=
  Sequence [pc 0 [(1%Z, "x")]; pc 0 [(1%Z, "y"); (1%Z, "z")]].

Definition map_input : pvalueish (Z * string) :=
  Mapping (<[TagStr "a" := pc 0 [(1%Z, "x")]]>
           (<[TagStr "b" := pc 0 []]> ∅)).

Definition keys_input : pvalueish (Z * string) :=
  Sequence [pc 0 [(1%Z, "x"); (2%Z, "w")];
            pc 0 [(1%Z, "y"); (3%Z, "u"); (1%Z, "z")]].

Definition self_seven : t := {| pipeline := PyPipeline 7 |}.

(** Two grouped rows of a co-group of two sources. *)
Definition two_rows : list (Z * list (tag * string)) :=
  [(1%Z, [(TagInt 0, "x"); (TagInt 1, "y")]); (2%Z, [(TagInt 1, "z")])].

Definition mixed_input : pvalueish (Z * string) :=
  Sequence [pc 7 [(1%Z, "x")]; pc 8 [(1%Z, "y")]].
End Examples.

(** ** Vocabulary of the further properties *)

(** The exception [result_value[tag]] raises in a container built for
    shape [s], if it raises: a dict knows its tags only, a tuple takes an
    int between [-size] and [size - 1] only. *)
Definition lookup_failure (s : shape) (tg : tag) : option exn :=
  match s, tg with
  | DictOf tags, _ => if decide (tg ∈ tags) then None else Some KeyError
  | TupleOf _, TagStr _ => Some TypeError
  | TupleOf size, TagInt i =>
      if decide (- Z.of_nat size ≤ i < Z.of_nat size)%Z then None
      else Some IndexError
  end.

(** The result constructor of a shape, applied to its argument. *)
Definition result_ctor_of {V} (s : shape) : M V container :=
  match s with
  | DictOf tags => CoGroupByKey.result_ctor_dict tags
  | TupleOf size => CoGroupByKey.result_ctor_tuple size
  end.

(** The number of lists a result constructor allocates. *)
Definition arity (s : shape) : nat :=
  match s with
  | DictOf tags => length tags
  | TupleOf size => size
  end.

(** The sequences a container shows, one per slot. *)
Definition slots {V} (val : value V) : list (list V) :=
  match val with
  | VDict d => (map_to_list d).*2
  | VTuple t => t
  end.

(** The rows of an output as a consumer reads them. *)
Definition read_rows {K V} (h : heap V) (rows : list (K * container))
  : list (K * value V) :=
  (λ row, (row.1, snapshot h row.2)) <$> rows.

Module MoreExamples.
Import CoGroupByKey Examples.

(** A grouped row whose second entry carries a tag no input has. *)
Definition stray_row : list (tag * string) :=
  [(TagStr "a", "x"); (TagStr "c", "y"); (TagStr "a", "z")].

(** A grouped row that addresses the slots of a pair from both ends. *)
Definition both_ends_row : list (tag * string) :=
  [(TagInt 0, "x"); (TagInt (-1), "y"); (TagInt 1, "z"); (TagInt (-2), "w")].

Definition one_input : pvalue (Z * string) :=
  pc 0 [(1%Z, "x"); (2%Z, "w"); (1%Z, "y")].
End MoreExamples.


(** * Properties *)

(** ** Lists *)

Section ListFacts.
Context {A : Type}.

(** Two filters agree on a list when their tests agree on its
    elements. *)
Lemma filter_Forall_iff (P Q : A → Prop)
    `{!∀ x, Decision (P x), !∀ x, Decision (Q x)} (l : list A) :
  Forall (λ x, P x ↔ Q x) l → filter P l = filter Q l.
Proof.
  induction 1 as [|x l HPQ _ IH]; [done|].
  rewrite !filter_cons, IH.
  destruct (decide (P x)), (decide (Q x)); tauto.
Qed.

Lemma filter_Forall_not (P : A → Prop) `{!∀ x, Decision (P x)} (l : list A) :
  Forall (λ x, ¬ P x) l → filter P l = [].
Proof.
  induction 1 as [|x l HP _ IH]; [done|].
  by rewrite filter_cons_False.
Qed.

Lemma omap_Forall_Some {B} (f : A → option B) (g : A → B) (l : list A) :
  Forall (λ x, f x = Some (g x)) l → omap f l = g <$> l.
Proof.
  induction 1 as [|x l Hx _ IH]; [done|].
  simpl. rewrite Hx. simpl. f_equal. exact IH.
Qed.

Lemma Forall2_fmap_eq {B C} (f : A → C) (g : B → C) (R : A → B → Prop)
    (l : list A) (k : list B) :
  Forall2 (λ a b, g b = f a ∧ R a b) l k → g <$> k = f <$> l.
Proof.
  induction 1 as [|a b l k [Hab _] _ IH]; [done|].
  rewrite !fmap_cons. by rewrite Hab, IH.
Qed.

Lemma Forall2_Forall_right {B} (R : A → B → Prop) (P : B → Prop)
    (l : list A) (k : list B) :
  (∀ a b, R a b → P b) → Forall2 R l k → Forall P k.
Proof. intros HRP. induction 1; constructor; eauto. Qed.
End ListFacts.

Section ValuesOf.
Context {V : Type}.

Lemma values_of_cons tg tg0 (v : V) (l : list (tag * V)) :
  values_of tg ((tg0, v) :: l)
  = (if decide (tg0 = tg) then [v] else []) ++ values_of tg l.
Proof.
  unfold values_of. rewrite filter_cons. simpl.
  by destruct (decide (tg0 = tg)).
Qed.

Lemma values_of_app tg (l1 l2 : list (tag * V)) :
  values_of tg (l1 ++ l2) = values_of tg l1 ++ values_of tg l2.
Proof. unfold values_of. by rewrite filter_app, fmap_app. Qed.
End ValuesOf.

(** ** Running a computation *)

Section HeapFacts.
Context {V : Type}.
Implicit Types h : heap V.
Import CoGroupByKey.

Lemma exec_bind {A B} (m : M V A) (f : A → M V B) h :
  exec (bind m f) h
  = match exec m h with
    | Ok (a, h') => exec (f a) h'
    | Raise e => Raise e
    end.
Proof.
  revert h. induction m as [a|e|k IH|l v k IH]; intros h; simpl; try done.
  by destruct (h !! l).
Qed.

Lemma bind_Ok {A B} (m : M V A) (f : A → M V B) h a h' :
  exec m h = Ok (a, h') → exec (bind m f) h = exec (f a) h'.
Proof. rewrite exec_bind. by intros ->. Qed.

Lemma bind_Raise {A B} (m : M V A) (f : A → M V B) h e :
  exec m h = Raise e → exec (bind m f) h = Raise e.
Proof. rewrite exec_bind. by intros ->. Qed.

(** Running alone is stepping until the end. *)
Lemma exec_step {A} (m : M V A) h :
  exec m h = exec (step m h).1 (step m h).2.
Proof. destruct m as [a|e|k|l v k]; simpl; try done. by destruct (h !! l). Qed.

Lemma appended_cons c l tg (v : V) grouped :
  appended c l ((tg, v) :: grouped) =
  (if decide (getitem c tg = Ok l) then [v] else []) ++ appended c l grouped.
Proof.
  unfold appended. rewrite filter_cons. simpl.
  by destruct (decide (getitem c tg = Ok l)).
Qed.

(** The loop succeeds when every tag selects an allocated list, and it
    extends each list by the values sent to it. *)
Lemma fill_Ok c grouped h :
  Forall (λ tv, ∃ l, getitem c tv.1 = Ok l ∧ l < length h) grouped →
  exec (fill c grouped) h
  = Ok (tt, imap (λ l vs, vs ++ appended c l grouped) h).
Proof.
  unfold fill. revert h. induction grouped as [|[tg v] grouped IH]; intros h Hall.
  - simpl. f_equal. f_equal.
    apply list_eq. intros i. rewrite list_lookup_imap.
    destruct (h !! i); simpl; [|done]. by rewrite app_nil_r.
  - apply Forall_cons in Hall as [(l & Hl & Hlt) Hall]. simpl in Hl.
    destruct (lookup_lt_is_Some_2 h l Hlt) as [vs Hvs].
    simpl. rewrite Hl. simpl. rewrite Hvs.
    rewrite IH.
    2:{ eapply Forall_impl; [exact Hall|]. intros tv (l' & ? & ?).
        exists l'. by rewrite length_insert. }
    f_equal. f_equal. apply list_eq. intros i.
    rewrite !list_lookup_imap, appended_cons.
    destruct (decide (i = l)) as [->|Hne].
    + rewrite list_lookup_insert_eq by done. rewrite Hvs. simpl.
      rewrite decide_True by done. by rewrite <-app_assoc.
    + rewrite list_lookup_insert_ne by done.
      rewrite decide_False by congruence. done.
Qed.

(** The loop stops with the exception of the first lookup that fails. *)
Lemma fill_Raise c tg (v : V) grouped h e :
  getitem c tg = Raise e → exec (fill c ((tg, v) :: grouped)) h = Raise e.
Proof. intros He. unfold fill. simpl. by rewrite He. Qed.
End HeapFacts.

(** ** The result constructors *)

Section Constructors.
Context {V : Type}.
Implicit Types h : heap V.
Import CoGroupByKey.

(** The tuple constructor allocates [size] new lists, one per slot. *)
Lemma tuple_of_size_Ok size h :
  exec (tuple_of_size size) h
  = Ok (seq (length h) size, h ++ replicate size []).
Proof.
  revert h. induction size as [|size IH]; intros h; simpl.
  - by rewrite app_nil_r.
  - rewrite (bind_Ok _ _ _ _ _ (IH _)). simpl.
    rewrite length_app. simpl.
    rewrite <-app_assoc. simpl. do 3 f_equal. f_equal. lia.
Qed.

(** The dict constructor allocates one new list per tag; old entries of
    the seed survive only under tags that are not listed, and no new
    list is bound to two tags. *)
Lemma dict_of_tags_Ok tags d h :
  (∀ tg l, d !! tg = Some l → l < length h) →
  ∃ d', exec (dict_of_tags tags d) h
        = Ok (d', h ++ replicate (length tags) [])
    ∧ (∀ tg, tg ∈ tags →
         ∃ l, d' !! tg = Some l ∧ length h ≤ l < length h + length tags)
    ∧ (∀ tg, tg ∉ tags → d' !! tg = d !! tg)
    ∧ (∀ t1 t2 l, d' !! t1 = Some l → d' !! t2 = Some l →
         length h ≤ l → t1 = t2).
Proof.
  revert d h. induction tags as [|tg tags IH]; intros d h Hold.
  - exists d. simpl. rewrite app_nil_r.
    split; [done|]. split; [by intros ? ?%elem_of_nil|]. split; [done|].
    intros t1 t2 l H1 _ Hl. apply Hold in H1. lia.
  - simpl.
    destruct (IH (<[tg := length h]> d) (h ++ [[]])) as (d' & Hrun & Hin & Hout & Hinj).
    { intros t l. rewrite length_app. simpl.
      destruct (decide (tg = t)) as [->|Hne].
      - rewrite lookup_insert_eq. intros [= <-]. lia.
      - rewrite lookup_insert_ne by done. intros ?%Hold. lia. }
    rewrite length_app in Hin, Hinj. simpl in Hin, Hinj.
    exists d'. rewrite Hrun, <-app_assoc. simpl.
    split; [done|].
    assert (Hhead : ∀ t, t ∉ tags → d' !! t = Some (length h) → t = tg).
    { intros t Ht. rewrite (Hout t Ht).
      destruct (decide (tg = t)) as [->|Hne]; [done|].
      rewrite lookup_insert_ne by done. intros ?%Hold. lia. }
    split; [|split].
    + intros t [->|Ht]%elem_of_cons.
      * destruct (decide (tg ∈ tags)) as [Ht|Ht].
        -- destruct (Hin tg Ht) as (l & ? & ?). exists l. split; [done|lia].
        -- exists (length h). rewrite (Hout tg Ht), lookup_insert_eq.
           split; [done|lia].
      * destruct (Hin t Ht) as (l & ? & ?). exists l. split; [done|lia].
    + intros t [Hne Ht]%not_elem_of_cons.
      rewrite (Hout t Ht). by rewrite lookup_insert_ne.
    + intros t1 t2 l H1 H2 Hl.
      destruct (decide (l = length h)) as [->|Hne].
      * assert (∀ t, d' !! t = Some (length h) → t = tg) as Heq.
        { intros t Ht. destruct (decide (t ∈ tags)) as [Hin'|Hnin].
          - destruct (Hin t Hin') as (l' & Hl' & ?).
            rewrite Ht in Hl'. injection Hl' as <-. lia.
          - by apply Hhead. }
        by rewrite (Heq t1 H1), (Heq t2 H2).
      * apply (Hinj t1 t2 l H1 H2). lia.
Qed.

(** Lists allocated later do not change what a container shows. *)
Lemma snapshot_app h ext c :
  Forall (λ l, l < length h) (container_locs c) →
  snapshot (h ++ ext) c = snapshot h c.
Proof.
  intros Hlocs. destruct c as [d|t]; simpl in *; f_equal.
  - apply map_eq. intros tg. rewrite !lookup_omap.
    destruct (d !! tg) as [l|] eqn:Hl; simpl; [|done].
    apply lookup_app_l.
    rewrite Forall_forall in Hlocs. apply Hlocs.
    apply list_elem_of_fmap. exists (tg, l). split; [done|].
    by apply elem_of_map_to_list.
  - induction t as [|l t IH]; [done|].
    apply Forall_cons in Hlocs as [Hl Hlocs]. simpl.
    rewrite (lookup_app_l h ext l Hl). destruct (h !! l); simpl.
    + f_equal. by apply IH.
    + by apply IH.
Qed.
End Constructors.

(** ** The reconstructor, one row at a time *)

Section Merge.
Context {K V : Type}.
Implicit Types h : heap V.
Implicit Types grouped : list (tag * V).
Import CoGroupByKey.

(** A constructor that only allocates empty lists, followed by the
    filling loop: the heap grows by the new lists, each holding the
    values sent to it, and nothing that existed before is touched. *)
Lemma merge_fresh {Arg} (key : K) grouped
    (result_ctor : Arg → M V container) result_ctor_arg h c n :
  exec (result_ctor result_ctor_arg) h = Ok (c, h ++ replicate n []) →
  (∀ tg l, getitem c tg = Ok l → length h ≤ l < length h + n) →
  Forall (λ tv, ∃ l, getitem c tv.1 = Ok l) grouped →
  exec (_merge_tagged_vals_under_key (key, grouped)
          result_ctor result_ctor_arg) h
  = Ok ((key, c),
        h ++ ((λ l, appended c l grouped) <$> seq (length h) n)).
Proof.
  intros Hctor Hfresh Hall. unfold _merge_tagged_vals_under_key.
  rewrite (bind_Ok _ _ _ _ _ Hctor).
  erewrite bind_Ok; last first.
  { apply fill_Ok. eapply Forall_impl; [exact Hall|].
    intros tv (l & Hl). exists l. split; [done|].
    apply Hfresh in Hl. rewrite length_app, length_replicate. lia. }
  simpl. do 2 f_equal. rewrite imap_app. f_equal.
  - transitivity (imap (const id) h); [|by rewrite imap_const, list_fmap_id].
    apply imap_ext. intros l vs Hl. simpl.
    unfold appended. rewrite filter_Forall_not, app_nil_r; [done|].
    apply Forall_forall. intros tv _ Htv%Hfresh.
    apply lookup_lt_Some in Hl. lia.
  - apply list_eq. intros i.
    rewrite list_lookup_imap, list_lookup_fmap.
    destruct (decide (i < n)) as [Hi|Hi].
    + rewrite lookup_replicate_2 by done.
      rewrite (proj2 (lookup_seq _ _ i (length h + i))) by done. done.
    + rewrite (proj1 (lookup_replicate_None _ _ _)) by lia.
      rewrite lookup_ge_None_2; [done|]. rewrite length_seq. lia.
Qed.

(** The new list at [l] after [merge_fresh]. *)
Lemma lookup_merged h c grouped n l :
  length h ≤ l < length h + n →
  (h ++ ((λ l, appended c l grouped) <$> seq (length h) n)) !! l
  = Some (appended c l grouped).
Proof.
  intros Hl. rewrite lookup_app_r by lia. rewrite list_lookup_fmap.
  rewrite (proj2 (lookup_seq _ _ _ l)); [done|]. lia.
Qed.

Lemma tuple_getitem_nat {A} (t : list A) (i : nat) :
  tuple_getitem t (Z.of_nat i)
  = match t !! i with Some x => Ok x | None => Raise IndexError end.
Proof.
  unfold tuple_getitem. cbv zeta.
  rewrite (proj2 (Z.ltb_ge (Z.of_nat i) 0)) by lia. cbv iota.
  rewrite (proj2 (Z.ltb_ge (Z.of_nat i) 0)) by lia.
  by rewrite Nat2Z.id.
Qed.

(** The dict constructor: a dict over exactly the given tags, each
    bound to a new list of its own. *)
Lemma result_ctor_dict_Ok tags h :
  ∃ d, exec (result_ctor_dict tags) h
       = Ok (Dict d, h ++ replicate (length tags) [])
    ∧ (∀ tg, tg ∈ tags → is_Some (d !! tg))
    ∧ (∀ tg l, d !! tg = Some l →
         tg ∈ tags ∧ length h ≤ l < length h + length tags)
    ∧ (∀ t1 t2 l, d !! t1 = Some l → d !! t2 = Some l → t1 = t2).
Proof.
  destruct (dict_of_tags_Ok tags ∅ h)
    as (d & Hrun & Hin & Hout & Hinj); [by intros ? ? ?%lookup_empty_Some|].
  assert (Hfresh : ∀ tg l, d !! tg = Some l →
                    tg ∈ tags ∧ length h ≤ l < length h + length tags).
  { intros tg l Hl. destruct (decide (tg ∈ tags)) as [Ht|Ht].
    - destruct (Hin tg Ht) as (l' & Hl' & ?). split; [done|]. congruence.
    - rewrite (Hout tg Ht), lookup_empty in Hl. done. }
  exists d. split; [|split; [|split]].
  - unfold result_ctor_dict. by rewrite (bind_Ok _ _ _ _ _ Hrun).
  - intros tg Ht. destruct (Hin tg Ht) as (l & -> & _). by exists l.
  - done.
  - intros t1 t2 l H1 H2. destruct (Hfresh _ _ H1).
    eapply Hinj; [done..|lia].
Qed.

(** The tuple constructor: one new list per position. *)
Lemma result_ctor_tuple_Ok size h :
  exec (result_ctor_tuple size) h
  = Ok (Tuple (seq (length h) size), h ++ replicate size []).
Proof.
  unfold result_ctor_tuple.
  by rewrite (bind_Ok _ _ _ _ _ (tuple_of_size_Ok size h)).
Qed.

Lemma getitem_tuple_position size (n : nat) i :
  i < size →
  getitem (Tuple (seq n size)) (TagInt (Z.of_nat i)) = Ok (n + i).
Proof.
  intros Hi. simpl. rewrite tuple_getitem_nat.
  by rewrite (proj2 (lookup_seq _ _ i (n + i))).
Qed.

Lemma getitem_tuple_range size (n : nat) tg l :
  getitem (Tuple (seq n size)) tg = Ok l → n ≤ l < n + size.
Proof.
  destruct tg as [i|s]; simpl; [|done]. unfold tuple_getitem.
  destruct (_ <? 0)%Z; [done|].
  destruct (seq n size !! _) as [l'|] eqn:Hl'; [|done]. intros [= <-].
  apply lookup_seq in Hl'. lia.
Qed.

(** [_merge_tagged_vals_under_key] with the dict constructor. *)
Lemma merge_dict_Ok (key : K) grouped tags h :
  Forall (λ tv, tv.1 ∈ tags) grouped →
  fresh_row h key (merged_dict tags grouped)
    (exec (_merge_tagged_vals_under_key (key, grouped)
             result_ctor_dict tags) h).
Proof.
  intros Hall.
  destruct (result_ctor_dict_Ok tags h) as (d & Hrun & Hin & Hfresh & Hinj).
  exists (Dict d), ((λ l, appended (Dict d) l grouped) <$> seq (length h) (length tags)).
  split; [|split; [|split]].
  - apply merge_fresh.
    + done.
    + intros tg l. simpl. destruct (d !! tg) as [l'|] eqn:Hl; [|done].
      intros [= <-]. by apply Hfresh in Hl as [_ ?].
    + eapply Forall_impl; [exact Hall|]. intros tv Htv. simpl.
      destruct (Hin _ Htv) as (l & ->). by exists l.
  - unfold merged_dict. simpl. f_equal. apply map_eq. intros tg.
    rewrite lookup_omap.
    destruct (d !! tg) as [l|] eqn:Hl; simpl.
    + destruct (Hfresh _ _ Hl) as [Ht Hlt].
      rewrite lookup_merged by done.
      assert (appended (Dict d) l grouped = values_of tg grouped) as ->.
      { unfold appended, values_of. f_equal.
        apply list_filter_iff. intros tv. simpl. split.
        - destruct (d !! tv.1) as [l'|] eqn:Hl'; [|done].
          intros [= ->]. by eapply Hinj.
        - intros ->. by rewrite Hl. }
      symmetry. apply elem_of_list_to_map_1'.
      * by intros y (tg' & [= <- ->] & _)%list_elem_of_fmap.
      * apply list_elem_of_fmap. by exists tg.
    + symmetry. apply not_elem_of_list_to_map_1.
      rewrite <-list_fmap_compose. intros (tg' & -> & Ht)%list_elem_of_fmap.
      simpl in Hl. destruct (Hin _ Ht) as (l & Hl'). congruence.
  - simpl. rewrite length_fmap, length_seq. apply Forall_forall.
    intros l ([tg l'] & -> & Hl%elem_of_map_to_list)%list_elem_of_fmap.
    by apply Hfresh in Hl as [_ ?].
  - simpl. apply NoDup_fmap_2_strong; [|apply NoDup_map_to_list].
    intros [t1 l1] [t2 l2] H1%elem_of_map_to_list H2%elem_of_map_to_list.
    simpl. intros <-. f_equal. by eapply Hinj.
Qed.

(** [_merge_tagged_vals_under_key] with the tuple constructor. *)
Lemma merge_tuple_Ok (key : K) grouped size h :
  Forall (λ tv, position_tag size tv.1) grouped →
  fresh_row h key (merged_tuple size grouped)
    (exec (_merge_tagged_vals_under_key (key, grouped)
             result_ctor_tuple size) h).
Proof.
  intros Hall.
  set (t := seq (length h) size).
  assert (Hget : ∀ i, i < size →
            getitem (Tuple t) (TagInt (Z.of_nat i)) = Ok (length h + i))
    by apply getitem_tuple_position.
  exists (Tuple t), ((λ l, appended (Tuple t) l grouped) <$> seq (length h) size).
  split; [|split; [|split]].
  - apply merge_fresh.
    + apply result_ctor_tuple_Ok.
    + apply getitem_tuple_range.
    + eapply Forall_impl; [exact Hall|]. intros tv (i & -> & Hi).
      exists (length h + i). by apply Hget.
  - unfold merged_tuple. simpl. f_equal.
    erewrite (omap_Forall_Some _ (λ l, appended (Tuple t) l grouped)).
    2:{ apply Forall_forall.
        intros l (i & (-> & Hi)%lookup_seq)%list_elem_of_lookup_1.
        apply lookup_merged. lia. }
    unfold t at 2.
    replace (seq (length h) size) with (Nat.add (length h) <$> seq 0 size)
      by (rewrite fmap_add_seq; f_equal; lia).
    rewrite <-list_fmap_compose. apply list_fmap_ext.
    intros i' i (-> & Hi)%lookup_seq. simpl.
    unfold appended, values_of. f_equal. apply filter_Forall_iff.
    eapply Forall_impl; [exact Hall|]. intros tv (j & Hj & Hjs).
    rewrite Hj, (Hget j Hjs). split.
    * intros [= ?]. f_equal. lia.
    * intros [= ?]. f_equal. lia.
  - simpl. rewrite length_fmap, length_seq. apply Forall_forall.
    intros l (i & (-> & Hi)%lookup_seq)%list_elem_of_lookup_1. lia.
  - simpl. apply NoDup_seq.
Qed.

(** With either constructor, every lookup [result_value[tag]] of a
    valid tag finds a list of the new container. *)
Lemma merge_with_lookups s (key : K) grouped h :
  Forall (λ tv, valid_tag s tv.1) grouped →
  ∃ c n,
    exec (merge_with s (key, grouped)) h
    = Ok ((key, c), h ++ ((λ l, appended c l grouped) <$> seq (length h) n))
    ∧ ∀ tg, valid_tag s tg →
        ∃ l, getitem c tg = Ok l ∧ length h ≤ l < length h + n.
Proof.
  intros Hall. destruct s as [tags|size]; simpl in *.
  - destruct (result_ctor_dict_Ok tags h) as (d & Hrun & Hin & Hfresh & _).
    assert (Hget : ∀ tg, tg ∈ tags →
              ∃ l, getitem (Dict d) tg = Ok l
                   ∧ length h ≤ l < length h + length tags).
    { intros tg Ht. destruct (Hin tg Ht) as [l Hl]. exists l. simpl.
      rewrite Hl. split; [done|]. by apply Hfresh in Hl as [_ ?]. }
    exists (Dict d), (length tags). split; [|done].
    apply merge_fresh; [done| |].
    + intros tg l. simpl. destruct (d !! tg) as [l'|] eqn:Hl; [|done].
      intros [= <-]. by apply Hfresh in Hl as [_ ?].
    + eapply Forall_impl; [exact Hall|]. intros tv Htv.
      destruct (Hget _ Htv) as (l & ? & _). by exists l.
  - assert (Hget : ∀ tg, position_tag size tg →
              ∃ l, getitem (Tuple (seq (length h) size)) tg = Ok l
                   ∧ length h ≤ l < length h + size).
    { intros tg (i & -> & Hi). exists (length h + i).
      rewrite getitem_tuple_position by done. split; [done|lia]. }
    exists (Tuple (seq (length h) size)), size. split; [|done].
    apply merge_fresh.
    + apply result_ctor_tuple_Ok.
    + apply getitem_tuple_range.
    + eapply Forall_impl; [exact Hall|]. intros tv Htv.
      destruct (Hget _ Htv) as (l & ? & _). by exists l.
Qed.

(** Both constructors at once. *)
Lemma merge_with_Ok s (key : K) grouped h :
  Forall (λ tv, valid_tag s tv.1) grouped →
  fresh_row h key (merged s grouped) (exec (merge_with s (key, grouped)) h).
Proof.
  destruct s; [apply merge_dict_Ok|apply merge_tuple_Ok].
Qed.

(** The rows of a collection, reconstructed one after the other: every
    row on new lists of its own, and every container still reading, at
    the end, as it did when its row was done. *)
Lemma MapM_fresh_rows {A} (fn : A → M V (K * container))
    (key : A → K) (val : A → value V) rows h :
  (∀ a h', a ∈ rows → fresh_row h' (key a) (val a) (exec (fn a) h')) →
  ∃ out ext,
    exec (MapM fn rows) h = Ok (out, h ++ ext)
    ∧ Forall2 (λ a o, o.1 = key a ∧ snapshot (h ++ ext) o.2 = val a) rows out
    ∧ Forall (λ l, length h ≤ l < length h + length ext)
             (out.*2 ≫= container_locs)
    ∧ NoDup (out.*2 ≫= container_locs).
Proof.
  unfold MapM. revert h. induction rows as [|a rows IH]; intros h Hfn.
  - exists [], []. simpl. unfold ret. rewrite app_nil_r.
    split; [done|]. split; [constructor|]. split; [constructor|].
    apply NoDup_nil_2.
  - destruct (Hfn a h) as (c & ext1 & Hrun & Hsnap & Hlocs & Hnd); [left|].
    destruct (IH (h ++ ext1)) as (out & ext2 & Hrun' & Hall & Hlocs' & Hnd').
    { intros a' h' Ha'. apply Hfn. by right. }
    exists ((key a, c) :: out), (ext1 ++ ext2). simpl.
    rewrite (bind_Ok _ _ _ _ _ Hrun), (bind_Ok _ _ _ _ _ Hrun').
    unfold ret. rewrite <-app_assoc in *. split; [done|].
    rewrite length_app in *.
    split; [|split].
    + constructor; [|done]. simpl. split; [done|].
      rewrite app_assoc, snapshot_app; [done|].
      eapply Forall_impl; [exact Hlocs|]. simpl. intros l ?.
      rewrite length_app. lia.
    + apply Forall_app. split.
      * eapply Forall_impl; [exact Hlocs|]. simpl. intros l ?. lia.
      * eapply Forall_impl; [exact Hlocs'|]. simpl. intros l ?. lia.
    + apply NoDup_app. split; [done|]. split; [|done].
      intros l Hl Hl'.
      rewrite Forall_forall in Hlocs, Hlocs'.
      apply Hlocs in Hl. apply Hlocs' in Hl'. lia.
Qed.
End Merge.

(** ** Ownership of the lists of a row *)

Section Ownership.
Context {V : Type}.
Implicit Types σ : gmap loc (list V).
Implicit Types h : heap V.
Implicit Types grouped : list (tag * V).
Import CoGroupByKey.

Lemma owns_bind {A B} (m : M V A) (f : A → M V B) σ Φ :
  owns m σ (λ a σ', owns (f a) σ' Φ) → owns (bind m f) σ Φ.
Proof.
  revert σ. induction m as [a|e|k IH|l v k IH]; intros σ; simpl; try done.
  - intros Hk l Hl. by apply IH, Hk.
  - intros (vs & Hvs & Hk). exists vs. split; [done|]. by apply IH.
Qed.

Lemma owns_mono {A} (m : M V A) σ (Φ Ψ : A → gmap loc (list V) → Prop) :
  (∀ a σ', Φ a σ' → Ψ a σ') → owns m σ Φ → owns m σ Ψ.
Proof.
  intros HΦΨ. revert σ.
  induction m as [a|e|k IH|l v k IH]; intros σ; simpl; try done.
  - by apply HΦΨ.
  - intros Hk l Hl. by apply IH, Hk.
  - intros (vs & Hvs & Hk). exists vs. split; [done|]. by apply IH.
Qed.

Lemma holds_ext s c σ (content content' : tag → list V) :
  (∀ tg, content tg = content' tg) →
  holds s c σ content → holds s c σ content'.
Proof.
  intros Heq (Hshape & Hget & Hinj). split; [done|]. split; [|done].
  intros tg Htg. rewrite <-Heq. by apply Hget.
Qed.

(** The dict constructor, whatever addresses the new lists get. *)
Lemma owns_dict_of_tags tags d σ :
  (∀ tg l, d !! tg = Some l → σ !! l = Some []) →
  (∀ t1 t2 l, d !! t1 = Some l → d !! t2 = Some l → t1 = t2) →
  owns (dict_of_tags tags d) σ (λ d' σ',
    (∀ tg l, d' !! tg = Some l → σ' !! l = Some [])
    ∧ (∀ t1 t2 l, d' !! t1 = Some l → d' !! t2 = Some l → t1 = t2)
    ∧ (∀ tg, is_Some (d' !! tg) ↔ tg ∈ tags ∨ is_Some (d !! tg))).
Proof.
  revert d σ. induction tags as [|tg tags IH]; intros d σ Hempty Hinj; simpl.
  - split; [done|]. split; [done|]. intros tg. rewrite elem_of_nil. tauto.
  - intros l Hl. eapply owns_mono; [|apply IH].
    + intros d' σ' (? & ? & Hdom). split; [done|]. split; [done|].
      intros tg'. rewrite Hdom, elem_of_cons, lookup_insert_is_Some'.
      intuition auto.
    + intros tg' l'. destruct (decide (tg = tg')) as [->|Hne].
      * rewrite lookup_insert_eq. intros [= <-]. apply lookup_insert_eq.
      * rewrite lookup_insert_ne by done. intros Hl'.
        rewrite lookup_insert_ne; [by eapply Hempty|].
        intros ->. apply Hempty in Hl'. congruence.
    + assert (∀ t, d !! t = Some l → False) as Hfresh.
      { intros t Ht. apply Hempty in Ht. congruence. }
      intros t1 t2 l'.
      destruct (decide (tg = t1)) as [<-|Hne1], (decide (tg = t2)) as [<-|Hne2];
        rewrite ?lookup_insert_eq, ?lookup_insert_ne by done; try done.
      * intros [= <-] Ht. by destruct (Hfresh t2).
      * intros Ht [= <-]. by destruct (Hfresh t1).
      * apply Hinj.
Qed.

Lemma owns_result_ctor_dict tags :
  owns (V := V) (result_ctor_dict tags) ∅
    (λ c σ, holds (DictOf tags) c σ (λ _, [])).
Proof.
  unfold result_ctor_dict. apply owns_bind.
  eapply owns_mono;
    [|apply owns_dict_of_tags; intros; by simplify_map_eq].
  intros d σ (Hempty & Hinj & Hdom). simpl. split; [|split].
  - intros tg. rewrite Hdom, lookup_empty. split; [intros [?|[? ?]]|]; by auto.
  - intros tg Htg. destruct (proj2 (Hdom tg) (or_introl Htg)) as [l Hl].
    exists l. simpl. rewrite Hl. split; [done|]. by eapply Hempty.
  - intros t1 t2 l _ _. simpl.
    destruct (d !! t1) as [l1|] eqn:H1; [|done].
    destruct (d !! t2) as [l2|] eqn:H2; [|done].
    intros [= ->] [= ->]. by eapply Hinj.
Qed.

(** The tuple constructor, whatever addresses the new lists get. *)
Lemma owns_tuple_of_size size σ :
  owns (tuple_of_size size) σ (λ t σ',
    length t = size ∧ NoDup t
    ∧ (∀ l, l ∈ t → σ !! l = None ∧ σ' !! l = Some [])
    ∧ (∀ l, l ∉ t → σ' !! l = σ !! l)).
Proof.
  revert σ. induction size as [|size IH]; intros σ; simpl.
  - split; [done|]. split; [apply NoDup_nil_2|].
    split; [by intros ? ?%elem_of_nil|done].
  - intros l Hl. apply owns_bind. eapply owns_mono; [|apply IH].
    intros t σ' (Hlen & Hnd & Hnew & Hold). simpl.
    assert (l ∉ t) as Hnin.
    { intros [Hl' _]%Hnew. by rewrite lookup_insert_eq in Hl'. }
    split; [by rewrite Hlen|]. split; [by apply NoDup_cons|]. split.
    + intros l' [->|Hl']%elem_of_cons.
      * split; [done|]. by rewrite Hold, lookup_insert_eq.
      * destruct (Hnew l' Hl') as [Hnone ?]. split; [|done].
        apply lookup_insert_None in Hnone. tauto.
    + intros l' [Hne Hl']%not_elem_of_cons.
      by rewrite Hold, lookup_insert_ne.
Qed.

Lemma owns_result_ctor_tuple size :
  owns (V := V) (result_ctor_tuple size) ∅
    (λ c σ, holds (TupleOf size) c σ (λ _, [])).
Proof.
  unfold result_ctor_tuple. apply owns_bind.
  eapply owns_mono; [|apply owns_tuple_of_size].
  intros t σ (Hlen & Hnd & Hnew & _). simpl. split; [done|]. split.
  - intros tg (i & -> & Hi). simpl. rewrite tuple_getitem_nat.
    destruct (lookup_lt_is_Some_2 t i) as [l Hl]; [lia|].
    rewrite Hl. exists l. split; [done|].
    by apply Hnew, (list_elem_of_lookup_2 _ i).
  - intros t1 t2 l (i1 & -> & Hi1) (i2 & -> & Hi2). simpl.
    rewrite !tuple_getitem_nat.
    destruct (t !! i1) as [l1|] eqn:H1; [|done].
    destruct (t !! i2) as [l2|] eqn:H2; [|done].
    intros [= ->] [= ->]. by rewrite (NoDup_lookup _ _ _ _ Hnd H1 H2).
Qed.

(** The loop of the reconstructor appends each value to the list its
    tag selects, and to no other. *)
Lemma owns_fill s c grouped σ content :
  holds s c σ content →
  Forall (λ tv, valid_tag s tv.1) grouped →
  owns (fill c grouped) σ
    (λ _ σ', holds s c σ' (λ tg, content tg ++ values_of tg grouped)).
Proof.
  revert σ content.
  induction grouped as [|[tg v] grouped IH]; intros σ content Hc Hall; simpl.
  - eapply holds_ext; [|exact Hc]. intros tg. by rewrite app_nil_r.
  - apply Forall_cons in Hall as [Htg Hall]. simpl in Htg.
    destruct Hc as (Hshape & Hget & Hinj).
    destruct (Hget tg Htg) as (l & Hl & Hσ).
    unfold fill in *. simpl. rewrite Hl. simpl.
    exists (content tg). split; [done|].
    eapply owns_mono; [|apply (IH _
      (λ t, content t ++ if decide (tg = t) then [v] else [])); [|done]].
    + intros [] σ'. apply holds_ext. intros t.
      by rewrite values_of_cons, !app_assoc.
    + split; [done|]. split; [|done]. intros t Ht.
      destruct (Hget t Ht) as (l' & Hl' & Hσ'). exists l'. split; [done|].
      destruct (decide (tg = t)) as [->|Hne].
      * assert (l' = l) as -> by congruence. apply lookup_insert_eq.
      * rewrite app_nil_r, lookup_insert_ne; [done|].
        intros ->. apply Hne. by eapply Hinj.
Qed.

(** The reconstructor owns the lists of its row from the first to the
    last step. *)
Lemma owns_merge_with {K} s (key : K) grouped :
  Forall (λ tv, valid_tag s tv.1) grouped →
  owns (merge_with s (key, grouped)) ∅ (row_done s (key, grouped)).
Proof.
  intros Hall.
  assert (∀ {Arg} (result_ctor : Arg → M V container) result_ctor_arg,
    owns (result_ctor result_ctor_arg) ∅ (λ c σ, holds s c σ (λ _, [])) →
    owns (_merge_tagged_vals_under_key (key, grouped)
            result_ctor result_ctor_arg) ∅ (row_done s (key, grouped)))
    as Hmerge.
  { intros Arg result_ctor result_ctor_arg Hctor.
    unfold _merge_tagged_vals_under_key. apply owns_bind.
    eapply owns_mono; [|exact Hctor]. intros c σ Hc. apply owns_bind.
    eapply owns_mono; [|exact (owns_fill s c grouped σ _ Hc Hall)].
    intros [] σ' Hc'. by split. }
  destruct s as [tags|size]; simpl.
  - apply Hmerge, owns_result_ctor_dict.
  - apply Hmerge, owns_result_ctor_tuple.
Qed.

(** A computation that owns its lists runs to its end when run alone,
    from any heap that holds them. *)
Lemma owns_exec {A} (m : M V A) σ Φ h :
  owns m σ Φ → within σ h →
  ∃ a h' σ', exec m h = Ok (a, h') ∧ Φ a σ' ∧ within σ' h'.
Proof.
  revert σ h. induction m as [a|e|k IH|l v k IH]; intros σ h; simpl.
  - intros Ha Hσ. by exists a, h, σ.
  - done.
  - intros Hk Hσ. apply (IH _ (<[length h := []]> σ)).
    + apply Hk. destruct (σ !! length h) as [vs|] eqn:Hl; [|done].
      apply Hσ, lookup_lt_Some in Hl. lia.
    + intros l vs. destruct (decide (length h = l)) as [<-|Hne].
      * rewrite lookup_insert_eq. intros [= <-].
        by rewrite lookup_app_r, Nat.sub_diag.
      * rewrite lookup_insert_ne by done. intros Hl%Hσ.
        by apply lookup_app_l_Some.
  - intros (vs & Hvs & Hk) Hσ. rewrite (Hσ _ _ Hvs).
    apply (IH _ _ Hk). intros l' vs'.
    destruct (decide (l = l')) as [<-|Hne].
    + rewrite lookup_insert_eq. intros [= <-].
      apply list_lookup_insert_eq. by eapply lookup_lt_Some, Hσ.
    + rewrite lookup_insert_ne, list_lookup_insert_ne by done. apply Hσ.
Qed.

Lemma omap_lookup_seq {A B} (f : A → option B) (g : nat → B) (t : list A) :
  (∀ i x, t !! i = Some x → f x = Some (g i)) →
  omap f t = g <$> seq 0 (length t).
Proof.
  revert g. induction t as [|x t IH]; intros g Hg; [done|].
  simpl. rewrite (Hg 0 x eq_refl). simpl. f_equal.
  rewrite <-fmap_S_seq, <-list_fmap_compose.
  apply (IH (g ∘ S)). intros i y Hy. by apply (Hg (S i)).
Qed.

(** A container that holds the values of a grouped row reads as the
    container Section 4.5 promises. *)
Lemma snapshot_holds s c σ h grouped :
  holds s c σ (λ tg, values_of tg grouped) → within σ h →
  snapshot h c = merged s grouped.
Proof.
  intros (Hshape & Hget & _) Hσ.
  destruct s as [tags|size], c as [d|t]; simpl in *; try done;
    unfold merged_dict, merged_tuple; f_equal.
  - apply map_eq. intros tg. rewrite lookup_omap.
    destruct (decide (tg ∈ tags)) as [Htg|Htg].
    + destruct (Hget tg Htg) as (l & Hl & Hvs).
      destruct (d !! tg) as [l'|]; [|done]. injection Hl as ->. simpl.
      rewrite (Hσ _ _ Hvs). symmetry. apply elem_of_list_to_map_1'.
      * by intros y (tg' & [= <- ->] & _)%list_elem_of_fmap.
      * apply list_elem_of_fmap. by exists tg.
    + destruct (d !! tg) as [l|] eqn:Hl.
      { destruct Htg. apply Hshape. by rewrite Hl. }
      simpl. symmetry. apply not_elem_of_list_to_map_1.
      rewrite <-list_fmap_compose.
      by intros (tg' & -> & Ht)%list_elem_of_fmap.
  - rewrite <-Hshape. apply omap_lookup_seq. intros i l Hl.
    destruct (Hget (TagInt (Z.of_nat i))) as (l' & Hl' & Hvs).
    { exists i. split; [done|]. rewrite <-Hshape. by eapply lookup_lt_Some. }
    rewrite tuple_getitem_nat, Hl in Hl'. injection Hl' as <-.
    by apply Hσ.
Qed.

(** One step of one computation keeps the pool in order. *)
Lemma pool_owns_step {A} (tasks : list (M V A)) Φ h i m :
  pool_owns tasks Φ h → tasks !! i = Some m →
  pool_owns (<[i := (step m h).1]> tasks) Φ (step m h).2.
Proof.
  intros (σs & Hlen & Hown & Hdisj) Hm.
  destruct (lookup_lt_is_Some_2 σs i) as [σ Hσi].
  { rewrite Hlen. by eapply lookup_lt_Some. }
  destruct (Hown i m σ Hm Hσi) as [Hm_owns Hσ].
  destruct m as [a|e|k|l v k]; simpl in *.
  - rewrite list_insert_id by done. by exists σs.
  - done.
  - assert (∀ j σj, σs !! j = Some σj → σj !! length h = None) as Hnew.
    { intros j σj Hj. destruct (σj !! length h) as [vs|] eqn:Hl; [|done].
      destruct (lookup_lt_is_Some_2 tasks j) as [mj Hmj].
      { rewrite <-Hlen. by eapply lookup_lt_Some. }
      destruct (Hown j mj σj Hmj Hj) as [_ Hσj].
      apply Hσj, lookup_lt_Some in Hl. lia. }
    exists (<[i := <[length h := []]> σ]> σs).
    split; [by rewrite !length_insert|]. split.
    + intros j mj σj. destruct (decide (i = j)) as [<-|Hne].
      * rewrite !list_lookup_insert_eq
          by (rewrite ?Hlen; by eapply lookup_lt_Some).
        intros [= <-] [= <-]. split; [by eapply Hm_owns, Hnew|].
        intros l vs. destruct (decide (length h = l)) as [<-|Hne].
        -- rewrite lookup_insert_eq. intros [= <-].
           by rewrite lookup_app_r, Nat.sub_diag.
        -- rewrite lookup_insert_ne by done. intros Hl%Hσ.
           by apply lookup_app_l_Some.
      * rewrite !list_lookup_insert_ne by done. intros Hmj Hj.
        destruct (Hown j mj σj Hmj Hj) as [? Hσj]. split; [done|].
        intros l vs Hl%Hσj. by apply lookup_app_l_Some.
    + intros j1 j2 σ1 σ2 l Hne.
      destruct (decide (i = j1)) as [<-|Hne1].
      * rewrite list_lookup_insert_eq by (by eapply lookup_lt_Some).
        rewrite list_lookup_insert_ne by done. intros [= <-] H2.
        rewrite lookup_insert_is_Some'. intros [<-|Hl]; [by eapply Hnew|].
        by eapply (Hdisj i j2).
      * rewrite list_lookup_insert_ne by done. intros H1.
        destruct (decide (i = j2)) as [<-|Hne2].
        -- rewrite list_lookup_insert_eq by (by eapply lookup_lt_Some).
           intros [= <-] Hl. apply lookup_insert_None. split.
           ++ by eapply (Hdisj j1 i).
           ++ intros <-. rewrite (Hnew _ _ H1) in Hl. by destruct Hl.
        -- rewrite list_lookup_insert_ne by done. intros H2.
           by eapply (Hdisj j1 j2).
  - destruct Hm_owns as (vs & Hvs & Hk). rewrite (Hσ _ _ Hvs). simpl.
    exists (<[i := <[l := vs ++ [v]]> σ]> σs).
    split; [by rewrite !length_insert|]. split.
    + intros j mj σj. destruct (decide (i = j)) as [<-|Hne].
      * rewrite !list_lookup_insert_eq
          by (rewrite ?Hlen; by eapply lookup_lt_Some).
        intros [= <-] [= <-]. split; [done|].
        intros l' vs'. destruct (decide (l = l')) as [<-|Hne].
        -- rewrite lookup_insert_eq. intros [= <-].
           apply list_lookup_insert_eq. by eapply lookup_lt_Some, Hσ.
        -- rewrite lookup_insert_ne, list_lookup_insert_ne by done.
           apply Hσ.
      * rewrite !list_lookup_insert_ne by done. intros Hmj Hj.
        destruct (Hown j mj σj Hmj Hj) as [? Hσj]. split; [done|].
        intros l' vs' Hl'. rewrite list_lookup_insert_ne; [by apply Hσj|].
        intros <-. rewrite (Hdisj i j σ σj l) in Hl'; by eauto.
    + intros j1 j2 σ1 σ2 l' Hne.
      destruct (decide (i = j1)) as [<-|Hne1].
      * rewrite list_lookup_insert_eq by (by eapply lookup_lt_Some).
        rewrite list_lookup_insert_ne by done. intros [= <-] H2.
        rewrite lookup_insert_is_Some'. intros [<-|Hl].
        -- by eapply (Hdisj i j2); eauto.
        -- by eapply (Hdisj i j2).
      * rewrite list_lookup_insert_ne by done. intros H1.
        destruct (decide (i = j2)) as [<-|Hne2].
        -- rewrite list_lookup_insert_eq by (by eapply lookup_lt_Some).
           intros [= <-] Hl. apply lookup_insert_None. split.
           ++ by eapply (Hdisj j1 i).
           ++ intros <-. rewrite (Hdisj i j1 σ σ1 l) in Hl; eauto.
              by destruct Hl.
        -- rewrite list_lookup_insert_ne by done. intros H2.
           by eapply (Hdisj j1 j2).
Qed.

Lemma pool_owns_lookup {A} (tasks : list (M V A)) Φ h i m :
  pool_owns tasks Φ h → tasks !! i = Some m →
  ∃ σ, owns m σ (Φ i) ∧ within σ h.
Proof.
  intros (σs & Hlen & Hown & _) Hm.
  destruct (lookup_lt_is_Some_2 σs i) as [σ Hσ].
  { rewrite Hlen. by eapply lookup_lt_Some. }
  exists σ. by eapply Hown.
Qed.

(** Whatever the schedule, the pool stays in order. *)
Lemma pool_owns_interleave {A} schedule (tasks : list (M V A)) Φ h :
  pool_owns tasks Φ h →
  pool_owns (interleave schedule tasks h).1 Φ (interleave schedule tasks h).2.
Proof.
  revert tasks h. induction schedule as [|i schedule IH]; intros tasks h Hpool.
  - done.
  - simpl. destruct (tasks !! i) as [m|] eqn:Hm; [|by apply IH].
    pose proof (pool_owns_step tasks Φ h i m Hpool Hm) as Hstep.
    destruct (step m h) as [m' h']. by apply IH.
Qed.

(** A pool of computations that need no list to start with. *)
Lemma pool_owns_init {A} (tasks : list (M V A)) Φ h :
  (∀ i m, tasks !! i = Some m → owns m ∅ (Φ i)) →
  pool_owns tasks Φ h.
Proof.
  intros Hown. exists (replicate (length tasks) ∅).
  split; [apply length_replicate|]. split.
  - intros i m σ Hm [-> _]%lookup_replicate. split; [by apply Hown|].
    by intros l vs ?%lookup_empty_Some.
  - intros i j σi σj l _ _ [-> _]%lookup_replicate _. apply lookup_empty.
Qed.
End Ownership.


(** ** The grouper *)

Section GroupByKeyFacts.
Context {K X : Type} `{EqDecision K}.
Implicit Types groups : list (K * list X).
Implicit Types pcoll : list (K * X).

Lemma group_add_keys k x groups k' :
  k' ∈ (group_add k x groups).*1 ↔ k' = k ∨ k' ∈ groups.*1.
Proof.
  induction groups as [|[k0 xs] groups IH]; simpl.
  - rewrite list_elem_of_singleton, elem_of_nil. tauto.
  - destruct (decide (k = k0)) as [->|Hne]; simpl.
    + rewrite elem_of_cons. tauto.
    + rewrite !elem_of_cons, IH. tauto.
Qed.

Lemma group_add_NoDup k x groups :
  NoDup groups.*1 → NoDup (group_add k x groups).*1.
Proof.
  induction groups as [|[k0 xs] groups IH]; simpl.
  - intros _. apply NoDup_singleton.
  - rewrite NoDup_cons. intros [Hk0 Hnd].
    destruct (decide (k = k0)) as [->|Hne]; simpl.
    + by apply NoDup_cons.
    + apply NoDup_cons. split; [|by apply IH].
      rewrite group_add_keys. intros [?|?]; [by apply Hne|done].
Qed.

(** Where a group of [group_add k x groups] comes from. *)
Lemma group_add_elem k x groups k' xs' :
  NoDup groups.*1 →
  (k', xs') ∈ group_add k x groups →
  (k' ≠ k ∧ (k', xs') ∈ groups)
  ∨ (k' = k ∧ ∃ xs, xs' = xs ++ [x]
              ∧ ((k, xs) ∈ groups ∨ (xs = [] ∧ k ∉ groups.*1))).
Proof.
  induction groups as [|[k0 xs0] groups IH]; simpl.
  - intros _ [= -> ->]%list_elem_of_singleton. right. split; [done|].
    exists []. split; [done|]. right. split; [done|]. apply not_elem_of_nil.
  - rewrite NoDup_cons. intros [Hk0 Hnd].
    destruct (decide (k = k0)) as [->|Hne].
    + intros [[= -> ->]|Hin]%elem_of_cons.
      * right. split; [done|]. exists xs0. split; [done|]. left. left.
      * left. split; [|by right]. intros ->. apply Hk0.
        apply list_elem_of_fmap. by exists (k0, xs').
    + intros [[= -> ->]|Hin]%elem_of_cons.
      * left. split; [done|]. left.
      * destruct (IH Hnd Hin) as [[? ?]|(-> & xs & -> & Hxs)].
        -- left. split; [done|]. by right.
        -- right. split; [done|]. exists xs. split; [done|].
           destruct Hxs as [?|[-> Hk]]; [left; by right|].
           right. split; [done|]. rewrite not_elem_of_cons. done.
Qed.

Lemma values_under_snoc k pcoll k' (x : X) :
  values_under k (pcoll ++ [(k', x)])
  = values_under k pcoll ++ (if decide (k' = k) then [x] else []).
Proof.
  unfold values_under. rewrite filter_app, fmap_app. f_equal.
  rewrite filter_cons. simpl. by destruct (decide (k' = k)).
Qed.

Lemma values_under_absent k pcoll :
  k ∉ pcoll.*1 → values_under k pcoll = [].
Proof.
  intros Hk. unfold values_under. rewrite filter_Forall_not; [done|].
  apply Forall_forall. intros kv Hkv Heq. apply Hk.
  apply list_elem_of_fmap. by exists kv.
Qed.

(** The grouper: one group per distinct key of the collection, holding
    the values of that key in their order of arrival. *)
Lemma GroupByKey_spec pcoll :
  NoDup (GroupByKey pcoll).*1
  ∧ (∀ k, k ∈ (GroupByKey pcoll).*1 ↔ k ∈ pcoll.*1)
  ∧ (∀ k xs, (k, xs) ∈ GroupByKey pcoll → xs = values_under k pcoll).
Proof.
  unfold GroupByKey.
  induction pcoll as [|[k x] pcoll (Hnd & Hkeys & Hvals)] using rev_ind.
  - simpl. split; [apply NoDup_nil_2|]. split; [done|].
    by intros ? ? ?%elem_of_nil.
  - rewrite foldl_app. simpl. split; [by apply group_add_NoDup|]. split.
    + intros k'. rewrite group_add_keys, fmap_app, elem_of_app, Hkeys.
      simpl. rewrite list_elem_of_singleton. tauto.
    + intros k' xs' Hin. rewrite values_under_snoc.
      destruct (group_add_elem _ _ _ _ _ Hnd Hin)
        as [[Hne Hin']|(-> & xs & -> & Hxs)].
      * rewrite decide_False by done. rewrite app_nil_r. by apply Hvals.
      * rewrite decide_True by done. f_equal.
        destruct Hxs as [Hin'|[-> Hk]]; [by apply Hvals|].
        symmetry. apply values_under_absent. by rewrite <-Hkeys.
Qed.

(** The group of a key that occurs in the collection. *)
Lemma GroupByKey_elem pcoll k :
  k ∈ pcoll.*1 → (k, values_under k pcoll) ∈ GroupByKey pcoll.
Proof.
  destruct (GroupByKey_spec pcoll) as (_ & Hkeys & Hvals).
  intros ([k' xs] & -> & Hin)%Hkeys%list_elem_of_fmap. simpl.
  by rewrite <-(Hvals _ _ Hin).
Qed.
End GroupByKeyFacts.

(** ** From the inputs to the grouped rows *)

Section Pipeline.
Context {K V : Type} `{EqDecision K}.
Implicit Types h : heap V.
Implicit Types pcolls : list (tag * pvalue (K * V)).
Import CoGroupByKey.

Lemma check_inputs_Ok {T} self (pcolls : list (tag * pvalue T)) h :
  Forall (owned_by self) pcolls.*2 →
  exec (V := V) (check_inputs self pcolls) h = Ok (tt, h).
Proof.
  induction pcolls as [|[tg [pc|]] pcolls IH]; simpl; [done| |].
  - rewrite Forall_cons. intros [Hown Hall]. simpl in Hown.
    destruct (truthy (pipeline self)) eqn:Htruthy; simpl.
    + rewrite bool_decide_eq_true_2 by auto. simpl. by apply IH.
    + by apply IH.
  - rewrite Forall_cons. by intros [[] _].
Qed.

Lemma traverse_pipe pcolls h :
  Forall (λ pcoll, is_pcoll pcoll = true) pcolls.*2 →
  exec (traverse (λ '(tg, pcoll),
    pipe pcoll (Map (λ key_value, _pair_tag_with_value key_value tg)))
    pcolls) h
  = Ok (paired_inputs pcolls, h).
Proof.
  revert h. induction pcolls as [|[tg [pc|]] pcolls IH]; intros h; simpl; [done| |].
  - rewrite Forall_cons. intros [_ Hall].
    by rewrite (bind_Ok _ _ _ _ _ (IH h Hall)).
  - rewrite Forall_cons. by intros [? _].
Qed.

(** The elements of the paired collections, one after the other, are
    the tagged union. *)
Lemma paired_inputs_elements pcolls :
  concat (PCollection.elements <$> paired_inputs pcolls) = tagged_union pcolls.
Proof.
  unfold tagged_union.
  induction pcolls as [|[tg [pc|]] pcolls IH]; simpl; [done| |done].
  f_equal. exact IH.
Qed.

Lemma paired_inputs_pipeline pcolls p :
  Forall (λ pcoll, pipeline_of pcoll = Some p) pcolls.*2 →
  Forall (λ pc, PCollection.pipeline pc = p) (paired_inputs pcolls).
Proof.
  induction pcolls as [|[tg [pc|]] pcolls IH]; simpl; [done| |].
  - rewrite !Forall_cons. simpl. intros [[= Hp] Hall]. split; [done|by apply IH].
  - rewrite Forall_cons. by intros [? _].
Qed.

Lemma paired_inputs_pipeline_inv pcolls p :
  Forall (λ pcoll, is_pcoll pcoll = true) pcolls.*2 →
  Forall (λ pc, PCollection.pipeline pc = p) (paired_inputs pcolls) →
  Forall (λ pcoll, pipeline_of pcoll = Some p) pcolls.*2.
Proof.
  induction pcolls as [|[tg [pc|]] pcolls IH]; simpl; [done| |].
  - rewrite !Forall_cons. simpl. intros [_ Hall] [Hp Hps].
    split; [by rewrite Hp|by apply IH].
  - rewrite Forall_cons. by intros [? _].
Qed.

Lemma paired_inputs_nil pcolls :
  Forall (λ pcoll, is_pcoll pcoll = true) pcolls.*2 →
  paired_inputs pcolls = [] → pcolls = [].
Proof.
  destruct pcolls as [|[tg [pc|]] pcolls]; simpl; [done|done|].
  rewrite Forall_cons. by intros [? _].
Qed.

Lemma forallb_pipeline {A} (q : pyobj) (l : list (PCollection.t A)) :
  forallb (λ pp, bool_decide (PyPipeline (PCollection.pipeline pp) = q)) l
  = true
  ↔ Forall (λ pp, PyPipeline (PCollection.pipeline pp) = q) l.
Proof.
  induction l as [|pc l IH]; simpl.
  - split; [constructor|done].
  - by rewrite Forall_cons, andb_true_iff, IH, bool_decide_eq_true.
Qed.

(** The union step accepts collections of one pipeline, the one given
    to the transform if one was given, and concatenates them. *)
Lemma Flatten_Ok {A} (o : pyobj) (l : list (PCollection.t A)) p :
  Forall (λ pc, PCollection.pipeline pc = p) l →
  (truthy o = true → o = PyPipeline p) →
  (l = [] → o = PyPipeline p) →
  ∃ union,
    Flatten o l = Ok union
    ∧ PCollection.elements union = concat (PCollection.elements <$> l).
Proof.
  intros Hall Htruthy Hnil. destruct l as [|pc l]; simpl.
  - rewrite Hnil by done. by eexists.
  - set (q := if truthy o then o else PyPipeline (PCollection.pipeline pc)).
    assert (q = PyPipeline p) as Hq.
    { unfold q. destruct (truthy o); [by apply Htruthy|].
      apply Forall_cons in Hall as [-> _]. done. }
    rewrite bool_decide_eq_true_2.
    2:{ rewrite Hq. apply Forall_cons in Hall as [-> _]. done. }
    simpl. rewrite (proj2 (forallb_pipeline q l)).
    2:{ rewrite Hq. apply Forall_cons in Hall as [_ Hall].
        eapply Forall_impl; [exact Hall|]. simpl. by intros pp ->. }
    by eexists.
Qed.

(** What the union step accepted was of one pipeline; what it refuses,
    it refuses with ValueError, but for an object that is no pipeline
    standing in for the pipeline of no inputs. *)
Lemma Flatten_inv {A} (o : pyobj) (l : list (PCollection.t A)) :
  match Flatten o l with
  | Ok _ =>
      ∃ p, Forall (λ pc, PCollection.pipeline pc = p) l
           ∧ (l = [] → o = PyPipeline p)
  | Raise e => e = ValueError ∨ (l = [] ∧ o ≠ PyNone ∧ e = AttributeError)
  end.
Proof.
  destruct l as [|pc l]; simpl.
  - destruct o; try (right; by repeat split); [by left|].
    exists id. by split.
  - set (q := if truthy o then o else PyPipeline (PCollection.pipeline pc)).
    destruct (bool_decide _) eqn:Hpc; simpl; [|by left].
    destruct (forallb _ l) eqn:Hl; [|by left].
    apply bool_decide_eq_true in Hpc. apply forallb_pipeline in Hl.
    exists (PCollection.pipeline pc). split; [|done].
    constructor; [done|]. eapply Forall_impl; [exact Hl|]. simpl.
    intros pp Hpp. rewrite <-Hpc in Hpp. by injection Hpp.
Qed.

Lemma owned_by_is_pcoll {T} self (pcoll : pvalue T) :
  owned_by self pcoll → is_pcoll pcoll = true.
Proof. by destruct pcoll. Qed.

Lemma check_inputs_cons_owned {T} self tg (pcoll : pvalue T)
    (tagged : list (tag * pvalue T)) h :
  owned_by self pcoll →
  exec (V := V) (check_inputs self ((tg, pcoll) :: tagged)) h
  = exec (check_inputs self tagged) h.
Proof.
  destruct pcoll as [pc|]; [|done]. simpl. intros Hown.
  destruct (truthy (pipeline self)); [|done].
  simpl. by rewrite bool_decide_eq_true_2 by auto.
Qed.

(** The checking loop passes all inputs, or stops at the first one that
    fails, with the exception of the check that failed. *)
Lemma check_inputs_outcome {T} self (tagged : list (tag * pvalue T)) h :
  Forall (owned_by self) tagged.*2
  ∨ ∃ before pcoll after,
      tagged.*2 = before ++ pcoll :: after
      ∧ Forall (owned_by self) before
      ∧ ¬ owned_by self pcoll
      ∧ exec (V := V) (check_inputs self tagged) h
        = Raise (if is_pcoll pcoll then AssertionError else TransformError).
Proof.
  induction tagged as [|[tg pcoll] tagged IH]; [left; constructor|].
  assert (owned_by self pcoll
          ∨ (¬ owned_by self pcoll
             ∧ exec (V := V) (check_inputs self ((tg, pcoll) :: tagged)) h
               = Raise (if is_pcoll pcoll then AssertionError
                        else TransformError))) as [Hown|[Hown Hrun]].
  { destruct pcoll as [pc|]; simpl; [|right; by split; [intros []|]].
    destruct (truthy (pipeline self)); [|left; by intros].
    destruct (decide (PyPipeline (PCollection.pipeline pc) = pipeline self))
      as [Heq|Hne]; [left; by intros|].
    right. split; [by intros Hown; apply Hne, Hown|].
    simpl. by rewrite bool_decide_eq_false_2 by done. }
  - rewrite check_inputs_cons_owned by done.
    destruct IH as [Hall|(before & p & after & Heq & Hbefore & Hp & Hrun)].
    + left. by constructor.
    + right. exists (pcoll :: before), p, after.
      rewrite fmap_cons, Heq. split; [done|]. split; [by constructor|done].
  - right. by exists [], pcoll, tagged.*2.
Qed.


(** The general-purpose code of [expand] runs the reconstructor over
    the groups of the tagged union. *)
(** Past the checking loop, [expand] is the union step followed by the
    grouper and the reconstructor. *)
Lemma expand_tagged_checked {Arg} self pcolls
    (result_ctor : Arg → M V container) result_ctor_arg h :
  Forall (owned_by self) pcolls.*2 →
  exec (expand_tagged self pcolls result_ctor result_ctor_arg) h
  = match Flatten (pipeline self) (paired_inputs pcolls) with
    | Ok union =>
        exec (MapM (λ key_grouped,
                      _merge_tagged_vals_under_key key_grouped
                        result_ctor result_ctor_arg)
                   (GroupByKey (PCollection.elements union))) h
    | Raise e => Raise e
    end.
Proof.
  intros Hall. unfold expand_tagged.
  rewrite (bind_Ok _ _ _ _ _ (check_inputs_Ok self pcolls h Hall)).
  erewrite bind_Ok.
  2:{ apply traverse_pipe.
      eapply Forall_impl; [exact Hall|]. apply owned_by_is_pcoll. }
  by destruct (Flatten _ _).
Qed.

(** The inputs that pass the checks and share a context pass the union
    step. *)
Lemma owned_one_context {T} self p (l : list (pvalue T)) :
  Forall (owned_by self) l → one_context self p l →
  truthy (pipeline self) = true → pipeline self = PyPipeline p.
Proof.
  intros Hown [Hall Hnil] Htruthy. destruct l as [|[pc|] l]; [by apply Hnil| |].
  - apply Forall_cons in Hown as [Hown _]. apply Forall_cons in Hall as [[= <-] _].
    symmetry. by apply Hown.
  - apply Forall_cons in Hown as [[] _].
Qed.

(** The general-purpose code of [expand] runs the reconstructor over
    the groups of the tagged union. *)
Lemma expand_tagged_run {Arg} self pcolls
    (result_ctor : Arg → M V container) result_ctor_arg h p :
  Forall (owned_by self) pcolls.*2 →
  one_context self p pcolls.*2 →
  exec (expand_tagged self pcolls result_ctor result_ctor_arg) h
  = exec (MapM (λ key_grouped,
                  _merge_tagged_vals_under_key key_grouped
                    result_ctor result_ctor_arg)
               (GroupByKey (tagged_union pcolls))) h.
Proof.
  intros Hall Hctx. rewrite expand_tagged_checked by done.
  destruct (Flatten_Ok (pipeline self) (paired_inputs pcolls) p)
    as (union & -> & Hunion).
  - apply paired_inputs_pipeline, Hctx.
  - by eapply owned_one_context.
  - intros Hnil. apply Hctx.
    apply paired_inputs_nil in Hnil; [by rewrite Hnil|].
    eapply Forall_impl; [exact Hall|]. apply owned_by_is_pcoll.
  - by rewrite Hunion, paired_inputs_elements.
Qed.

Lemma tagged_union_cons tg pcoll pcolls :
  tagged_union ((tg, pcoll) :: pcolls)
  = Map (λ key_value, _pair_tag_with_value key_value tg) (elements_of pcoll)
    ++ tagged_union pcolls.
Proof. done. Qed.

(** Every element of the union carries the tag of an input. *)
Lemma tagged_union_tag pcolls k tg (v : V) :
  (k, (tg, v)) ∈ tagged_union pcolls → tg ∈ pcolls.*1.
Proof.
  induction pcolls as [|[tg0 pcoll] pcolls IH]; [by intros ?%elem_of_nil|].
  rewrite tagged_union_cons, elem_of_app, fmap_cons, elem_of_cons.
  intros [([k' v'] & [= _ -> _] & _)%list_elem_of_fmap|Hin]; [by left|].
  right. by apply IH.
Qed.

(** The keys of the union are the keys of the inputs. *)
Lemma tagged_union_keys pcolls :
  (tagged_union pcolls).*1 = (pcolls.*2 ≫= elements_of).*1.
Proof.
  induction pcolls as [|[tg0 pcoll] pcolls IH]; [done|].
  rewrite tagged_union_cons. simpl. rewrite !fmap_app, IH. f_equal.
  unfold Map. rewrite <-list_fmap_compose. apply list_fmap_ext.
  by intros _ [k v] _.
Qed.

Lemma values_under_app {X} k (l1 l2 : list (K * X)) :
  values_under k (l1 ++ l2) = values_under k l1 ++ values_under k l2.
Proof. unfold values_under. by rewrite filter_app, fmap_app. Qed.

Lemma values_under_cons {X} k k0 (x : X) (l : list (K * X)) :
  values_under k ((k0, x) :: l)
  = (if decide (k0 = k) then [x] else []) ++ values_under k l.
Proof.
  unfold values_under. rewrite filter_cons. simpl.
  by destruct (decide (k0 = k)).
Qed.

(** Pairing with a tag and selecting that tag again gives the values
    back; selecting another tag gives nothing. *)
Lemma values_of_paired k tg tg' (pcoll : list (K * V)) :
  values_of tg (values_under k
    (Map (λ key_value, _pair_tag_with_value key_value tg') pcoll))
  = if decide (tg' = tg) then values_under k pcoll else [].
Proof.
  induction pcoll as [|[k0 v0] pcoll IH].
  - by destruct (decide (tg' = tg)).
  - change (Map ?f ((k0, v0) :: pcoll)) with ((k0, (tg', v0)) :: Map f pcoll).
    rewrite !values_under_cons, values_of_app, IH.
    destruct (decide (k0 = k)) as [->|Hne]; simpl.
    + rewrite values_of_cons. by destruct (decide (tg' = tg)).
    + done.
Qed.

Lemma values_of_tagged_union_absent pcolls k tg :
  tg ∉ pcolls.*1 → values_of tg (values_under k (tagged_union pcolls)) = [].
Proof.
  induction pcolls as [|[tg0 pcoll] pcolls IH]; [done|].
  rewrite fmap_cons, not_elem_of_cons. simpl. intros [Hne Hnin].
  rewrite tagged_union_cons, values_under_app, values_of_app.
  rewrite values_of_paired, decide_False by done. by apply IH.
Qed.

(** Tag threading: in the group of key [k], the values tagged [tg] are
    the values under [k] of the input tagged [tg], in its order. *)
Lemma values_of_tagged_union pcolls k tg pcoll :
  NoDup pcolls.*1 → (tg, pcoll) ∈ pcolls →
  values_of tg (values_under k (tagged_union pcolls))
  = values_under k (elements_of pcoll).
Proof.
  induction pcolls as [|[tg0 pcoll0] pcolls IH]; [by intros _ ?%elem_of_nil|].
  rewrite fmap_cons, NoDup_cons. simpl. intros [Hnin Hnd].
  rewrite tagged_union_cons, values_under_app, values_of_app, values_of_paired.
  intros [[= -> ->]|Hin]%elem_of_cons.
  - rewrite decide_True by done.
    rewrite values_of_tagged_union_absent by done. by rewrite app_nil_r.
  - rewrite decide_False.
    + by apply IH.
    + intros ->. apply Hnin. apply list_elem_of_fmap. by exists (tg, pcoll).
Qed.
End Pipeline.

(** ** expand, end to end *)

Section ExpandFacts.
Context {K V : Type} `{EqDecision K}.
Implicit Types h : heap V.
Implicit Types pcolls : pvalueish (K * V).
Import CoGroupByKey.

Lemma enumerate_fst {A} (l : list A) :
  (enumerate l).*1 = (λ i, TagInt (Z.of_nat i)) <$> seq 0 (length l).
Proof.
  unfold enumerate. rewrite fmap_imap. simpl.
  exact (imap_seq_0 l (λ i, TagInt (Z.of_nat i))).
Qed.

Lemma enumerate_snd {A} (l : list A) : (enumerate l).*2 = l.
Proof.
  unfold enumerate. rewrite fmap_imap.
  transitivity (imap (const id) l); [done|]. by rewrite imap_const, list_fmap_id.
Qed.

Lemma enumerate_lookup {A} (l : list A) i :
  enumerate l !! i = (λ x, (TagInt (Z.of_nat i), x)) <$> l !! i.
Proof.
  unfold enumerate.
  exact (list_lookup_imap (λ i x, (TagInt (Z.of_nat i), x)) l i).
Qed.

Lemma length_enumerate {A} (l : list A) : length (enumerate l) = length l.
Proof. unfold enumerate. apply length_imap. Qed.

Lemma tagged_inputs_snd {T} (pcolls : pvalueish T) :
  (tagged_inputs pcolls).*2 = inputs_of pcolls.
Proof. destruct pcolls; [done|apply enumerate_snd]. Qed.

Lemma tagged_inputs_NoDup {T} (pcolls : pvalueish T) :
  NoDup (tagged_inputs pcolls).*1.
Proof.
  destruct pcolls as [m|l]; simpl.
  - apply NoDup_fst_map_to_list.
  - rewrite enumerate_fst. apply NoDup_fmap_2; [|apply NoDup_seq].
    intros i j [= ?]. lia.
Qed.

Lemma tagged_inputs_valid {T} (pcolls : pvalueish T) tg :
  tg ∈ (tagged_inputs pcolls).*1 → valid_tag (shape_of pcolls) tg.
Proof.
  destruct pcolls as [m|l]; simpl; [done|].
  rewrite enumerate_fst.
  intros (i & -> & Hi%elem_of_seq)%list_elem_of_fmap.
  exists i. split; [done|lia].
Qed.

(** [expand] picks the constructor that fits the input and runs the
    reconstructor over the groups of the tagged union. *)
Lemma expand_run self pcolls h :
  inputs_ok self pcolls →
  one_pipeline self pcolls →
  exec (expand self pcolls) h
  = exec (MapM (merge_with (shape_of pcolls))
               (GroupByKey (tagged_union (tagged_inputs pcolls)))) h.
Proof.
  unfold inputs_ok, one_pipeline. rewrite <-tagged_inputs_snd.
  intros Hok [p Hctx].
  destruct pcolls as [m|l]; simpl in *.
  - by eapply expand_tagged_run.
  - erewrite expand_tagged_run by done. by rewrite length_enumerate.
Qed.

(** What the reconstructor builds from the group of key [k] is what the
    docstring promises for [k]. *)
Lemma merged_cogroup_value pcolls k :
  merged (shape_of pcolls)
    (values_under k (tagged_union (tagged_inputs pcolls)))
  = cogroup_value k pcolls.
Proof.
  pose proof (tagged_inputs_NoDup pcolls) as Hnd.
  destruct pcolls as [m|l]; simpl in *; unfold merged_dict, merged_tuple; f_equal.
  - apply map_eq. intros tg. rewrite lookup_fmap.
    destruct (m !! tg) as [pcoll|] eqn:Hm; simpl.
    + apply elem_of_map_to_list in Hm.
      rewrite <-(values_of_tagged_union (map_to_list m) k tg pcoll) by done.
      apply elem_of_list_to_map_1'.
      * by intros y (tg' & [= <- ->] & _)%list_elem_of_fmap.
      * apply list_elem_of_fmap. exists tg. split; [done|].
        apply list_elem_of_fmap. by exists (tg, pcoll).
    + apply not_elem_of_list_to_map_1.
      rewrite <-list_fmap_compose.
      intros (tg' & -> & ([tg'' pcoll] & -> & Hin)%list_elem_of_fmap)%list_elem_of_fmap.
      apply elem_of_map_to_list in Hin. simpl in Hm. congruence.
  - apply list_eq. intros i. rewrite !list_lookup_fmap.
    destruct (l !! i) as [pcoll|] eqn:Hl; simpl.
    + rewrite lookup_seq_lt by (by eapply lookup_lt_Some). simpl. f_equal.
      apply values_of_tagged_union; [done|].
      apply (list_elem_of_lookup_2 _ i). by rewrite enumerate_lookup, Hl.
    + rewrite lookup_seq_ge; [done|]. by apply lookup_ge_None.
Qed.

(** The master statement about [expand]: on inputs that pass the checks
    and share a context it returns one row per key of the inputs; every row reads as the
    docstring promises; the rows own new, pairwise distinct lists, and
    the lists that existed before are left as they were. *)
Lemma expand_Ok self pcolls h :
  inputs_ok self pcolls →
  one_pipeline self pcolls →
  ∃ rows ext,
    exec (expand self pcolls) h = Ok (rows, h ++ ext)
    ∧ NoDup rows.*1
    ∧ (∀ k, k ∈ rows.*1 ↔ k ∈ input_keys pcolls)
    ∧ Forall (λ row, snapshot (h ++ ext) row.2 = cogroup_value row.1 pcolls)
             rows
    ∧ Forall (λ l, length h ≤ l < length h + length ext)
             (rows.*2 ≫= container_locs)
    ∧ NoDup (rows.*2 ≫= container_locs).
Proof.
  intros Hok Hone. rewrite (expand_run _ _ _ Hok Hone).
  set (union := tagged_union (tagged_inputs pcolls)).
  destruct (GroupByKey_spec union) as (Hnd & Hkeys & Hvals).
  destruct (MapM_fresh_rows (merge_with (shape_of pcolls)) fst
              (λ kg, cogroup_value kg.1 pcolls) (GroupByKey union) h)
    as (rows & ext & Hrun & Hall & Hlocs & Hnd').
  { intros [k grouped] h' Hin. simpl.
    rewrite (Hvals _ _ Hin), <-merged_cogroup_value.
    apply merge_with_Ok. apply Forall_forall.
    intros tv ([k' [tg v]] & -> & [_ Htv]%list_elem_of_filter)%list_elem_of_fmap.
    simpl. apply tagged_inputs_valid. by eapply tagged_union_tag. }
  exists rows, ext. split; [done|].
  rewrite (Forall2_fmap_eq _ _ _ _ _ Hall). split; [done|]. split.
  { intros k. rewrite Hkeys. unfold union, input_keys.
    by rewrite tagged_union_keys, tagged_inputs_snd. }
  split; [|done].
  eapply Forall2_Forall_right; [|exact Hall].
  simpl. by intros a o [-> ->].
Qed.

(** Past the checking loop, [expand] is the union step followed by the
    grouper and the reconstructor. *)
Lemma expand_checked self pcolls h :
  inputs_ok self pcolls →
  exec (expand self pcolls) h
  = match Flatten (pipeline self) (paired_inputs (tagged_inputs pcolls)) with
    | Ok union =>
        exec (MapM (merge_with (shape_of pcolls))
                   (GroupByKey (PCollection.elements union))) h
    | Raise e => Raise e
    end.
Proof.
  unfold inputs_ok. rewrite <-tagged_inputs_snd. intros Hok.
  destruct pcolls as [m|l]; simpl in *.
  - by rewrite expand_tagged_checked.
  - rewrite expand_tagged_checked by done. by rewrite length_enumerate.
Qed.

(** What the checking loop raises, [expand] raises, before anything
    else. *)
Lemma expand_check_raises self pcolls e :
  check_inputs (V := V) self (tagged_inputs pcolls) = Throw e →
  expand self pcolls = Throw e.
Proof.
  destruct pcolls as [m|l]; simpl; unfold expand_tagged; by intros ->.
Qed.

Lemma expand_check_failed self pcolls h e :
  exec (check_inputs self (tagged_inputs pcolls)) h = Raise e →
  exec (expand self pcolls) h = Raise e.
Proof.
  intros Hrun.
  destruct pcolls as [m|l]; simpl in *; unfold expand_tagged;
    by rewrite (bind_Raise _ _ _ _ Hrun).
Qed.

(** The union step of [expand] accepts the inputs that share a context,
    and no others. *)
Lemma union_accepts self pcolls :
  inputs_ok self pcolls →
  (∃ union, Flatten (pipeline self) (paired_inputs (tagged_inputs pcolls))
            = Ok union)
  ↔ one_pipeline self pcolls.
Proof.
  unfold inputs_ok, one_pipeline. rewrite <-tagged_inputs_snd. intros Hok.
  assert (Forall (λ pcoll, is_pcoll pcoll = true) (tagged_inputs pcolls).*2)
    as Hpc by (eapply Forall_impl; [exact Hok|]; apply owned_by_is_pcoll).
  split.
  - intros [union Hunion].
    pose proof (Flatten_inv (pipeline self)
                  (paired_inputs (tagged_inputs pcolls))) as Hinv.
    rewrite Hunion in Hinv. destruct Hinv as (p & Hall & Hnil).
    exists p. split; [by apply paired_inputs_pipeline_inv|].
    intros Hempty. apply Hnil.
    by destruct (tagged_inputs pcolls).
  - intros [p Hctx].
    destruct (Flatten_Ok (pipeline self)
                (paired_inputs (tagged_inputs pcolls)) p)
      as (union & Hunion & _); [| | |by exists union].
    + apply paired_inputs_pipeline, Hctx.
    + by eapply owned_one_context.
    + intros Hnil. apply Hctx.
      apply paired_inputs_nil in Hnil; [by rewrite Hnil|done].
Qed.
End ExpandFacts.

(** * The documented behaviour of CoGroupByKey *)

Section CoGroupByKeyProperties.
Context {K V : Type} `{EqDecision K}.
Implicit Types h : heap V.
Implicit Types pcolls : pvalueish (K * V).
Import CoGroupByKey.

Lemma rows_for_NoDup {C} (k : K) (rows : list (K * C)) :
  NoDup rows.*1 →
  rows_for k rows = if decide (k ∈ rows.*1) then 1 else 0.
Proof.
  unfold rows_for. induction rows as [|[k0 c] rows IH]; [done|].
  rewrite fmap_cons, NoDup_cons, filter_cons. simpl. intros [Hk0 Hnd].
  rewrite (decide_ext (k ∈ k0 :: rows.*1) (k0 = k ∨ k ∈ rows.*1))
    by (rewrite elem_of_cons; intuition congruence).
  destruct (decide (k0 = k)) as [->|Hne]; simpl.
  - rewrite IH by done. rewrite decide_False by done.
    rewrite decide_True by tauto. done.
  - rewrite IH by done.
    destruct (decide (k ∈ rows.*1)).
    + by rewrite decide_True by tauto.
    + by rewrite decide_False by tauto.
Qed.

Lemma slot_cogroup_value pcolls k tg :
  slot (cogroup_value k pcolls) tg
  = (λ pcoll, values_under k (elements_of pcoll)) <$> input_at pcolls tg.
Proof.
  destruct pcolls as [m|l], tg as [i|s]; simpl; try done.
  - apply lookup_fmap.
  - apply lookup_fmap.
  - destruct (0 <=? i)%Z; [|done]. apply list_lookup_fmap.
Qed.

Lemma has_shape_cogroup_value pcolls k :
  has_shape (shape_of pcolls) (cogroup_value k pcolls).
Proof.
  destruct pcolls as [m|l]; simpl.
  - intros tg. rewrite lookup_fmap, fmap_is_Some.
    rewrite list_elem_of_fmap. split.
    + intros [pcoll Hm]. exists (tg, pcoll). split; [done|].
      by apply elem_of_map_to_list.
    + intros ([tg' pcoll] & -> & Hm%elem_of_map_to_list). by exists pcoll.
  - apply length_fmap.
Qed.

(** C1. For every family of keyed input collections, mapping-style or
    sequence-style, that passes the checks of [expand] and belongs to
    one pipeline, the output of CoGroupByKey holds exactly one row for
    each key in the union of the inputs' key sets, and no row for any
    other key. *)
Theorem expand_one_row_per_key self pcolls h :
  inputs_ok self pcolls →
  one_pipeline self pcolls →
  ∃ rows h',
    exec (expand self pcolls) h = Ok (rows, h')
    ∧ ∀ k, rows_for k rows
           = if decide (k ∈ input_keys pcolls) then 1 else 0.
Proof.
  intros Hok Hone.
  destruct (expand_Ok self pcolls h Hok Hone)
    as (rows & ext & Hrun & Hnd & Hkeys & _).
  exists rows, (h ++ ext). split; [done|]. intros k.
  rewrite rows_for_NoDup by done. apply decide_ext, Hkeys.
Qed.

(** C2. On inputs that pass the checks of [expand] and belong to one
    pipeline, every key of the inputs has a row, and every output row's
    container has the same shape, the full tag set of the mapping input
    or the arity of the sequence input; the slot of an input holds that
    input's values under the row's key: the empty sequence when there
    are none, never an absent slot. *)
Theorem expand_uniform_shape self pcolls h :
  inputs_ok self pcolls →
  one_pipeline self pcolls →
  ∃ rows h',
    exec (expand self pcolls) h = Ok (rows, h')
    ∧ (∀ k, k ∈ input_keys pcolls → ∃ c, (k, c) ∈ rows)
    ∧ ∀ k c, (k, c) ∈ rows →
        has_shape (shape_of pcolls) (snapshot h' c)
        ∧ ∀ tg pcoll, input_at pcolls tg = Some pcoll →
            slot (snapshot h' c) tg
            = Some (values_under k (elements_of pcoll))
            ∧ (k ∉ (elements_of pcoll).*1 →
               slot (snapshot h' c) tg = Some []).
Proof.
  intros Hok Hone.
  destruct (expand_Ok self pcolls h Hok Hone)
    as (rows & ext & Hrun & _ & Hkeys & Hval & _).
  exists rows, (h ++ ext). split; [done|]. split.
  { intros k ([k' c] & -> & Hin)%Hkeys%list_elem_of_fmap. by exists c. }
  intros k c Hin.
  rewrite Forall_forall in Hval. specialize (Hval _ Hin). simpl in Hval.
  rewrite Hval. split; [apply has_shape_cogroup_value|].
  intros tg pcoll Hat. rewrite slot_cogroup_value, Hat. simpl.
  split; [done|]. intros Hk. by rewrite values_under_absent.
Qed.

(** C5. For sequence-style input that passes the checks of [expand]
    and belongs to one pipeline, every key of the inputs has a row, and
    slot [i] of the row of key [k] holds the values of the [i]-th source
    under [k] in the order of that source; no slot depends on another
    source. The reconstructor itself keeps, slot by slot, the order of
    the grouped row it is given, whatever that order is across
    sources. *)
Theorem expand_sequence_source_order self (l : list (pvalue (K * V))) h :
  inputs_ok self (Sequence l) →
  one_pipeline self (Sequence l) →
  ∃ rows h',
    exec (expand self (Sequence l)) h = Ok (rows, h')
    ∧ (∀ k, k ∈ input_keys (Sequence l) → ∃ c, (k, c) ∈ rows)
    ∧ (∀ k c, (k, c) ∈ rows →
         snapshot h' c
         = VTuple ((λ pcoll, values_under k (elements_of pcoll)) <$> l))
    ∧ (∀ (key : K) (grouped : list (tag * V)) h0,
         Forall (λ tv, position_tag (length l) tv.1) grouped →
         ∃ c h1,
           exec (_merge_tagged_vals_under_key (key, grouped)
                   result_ctor_tuple (length l)) h0 = Ok ((key, c), h1)
           ∧ snapshot h1 c
             = VTuple ((λ i, values_of (TagInt (Z.of_nat i)) grouped)
                         <$> seq 0 (length l))).
Proof.
  intros Hok Hone.
  destruct (expand_Ok self _ h Hok Hone)
    as (rows & ext & Hrun & _ & Hkeys & Hval & _).
  exists rows, (h ++ ext). split; [done|]. split; [|split].
  - intros k ([k' c] & -> & Hin)%Hkeys%list_elem_of_fmap. by exists c.
  - intros k c Hin. rewrite Forall_forall in Hval. exact (Hval _ Hin).
  - intros key grouped h0 Hall.
    destruct (merge_tuple_Ok key grouped (length l) h0 Hall)
      as (c & ext' & Hmerge & Hsnap & _).
    by exists c, (h0 ++ ext').
Qed.

(** C9. For a grouped row whose tags all come from the tag set fixed at
    construction (the keys of the mapping, or the positions of the
    sequence), the reconstructor returns without raising, and every
    lookup [result_value[tag]] it made found a list: the KeyError and
    IndexError branches are not reached. *)
Theorem merge_lookups_succeed s (key : K) (grouped : list (tag * V)) h :
  Forall (λ tv, valid_tag s tv.1) grouped →
  ∃ c h',
    exec (merge_with s (key, grouped)) h = Ok ((key, c), h')
    ∧ Forall (λ tv, ∃ l, getitem c tv.1 = Ok l ∧ is_Some (h' !! l)) grouped.
Proof.
  intros Hall.
  destruct (merge_with_lookups s key grouped h Hall) as (c & n & Hrun & Hget).
  eexists c, _. split; [exact Hrun|].
  eapply Forall_impl; [exact Hall|]. intros tv Htv.
  destruct (Hget _ Htv) as (l & Hl & Hrange). exists l. split; [done|].
  by rewrite lookup_merged.
Qed.

(** C3. The reconstructor shares no container between rows. Rows
    processed one after the other, in whatever order they come: the
    heap only grows, every row gets new lists that no other row and no
    other slot refers to, and at the end every container still reads
    as its own grouped row alone determines. Rows processed at the
    same time, their steps interleaved by any schedule: at every
    moment, any row run to its end returns its key with a container
    that reads as its own grouped row alone determines. *)
Theorem reconstructor_rows_independent s
    (rows : list (K * list (tag * V))) h schedule :
  Forall (λ row, Forall (λ tv, valid_tag s tv.1) row.2) rows →
  (∃ out ext,
     exec (MapM (merge_with s) rows) h = Ok (out, h ++ ext)
     ∧ Forall2 (λ row o,
                  o.1 = row.1
                  ∧ snapshot (h ++ ext) o.2 = merged s row.2) rows out
     ∧ Forall (λ l, length h ≤ l) (out.*2 ≫= container_locs)
     ∧ NoDup (out.*2 ≫= container_locs))
  ∧ (∀ i row m,
       rows !! i = Some row →
       (interleave schedule (merge_with s <$> rows) h).1 !! i = Some m →
       ∃ c h',
         exec m (interleave schedule (merge_with s <$> rows) h).2
         = Ok ((row.1, c), h')
         ∧ snapshot h' c = merged s row.2).
Proof.
  intros Hall. rewrite Forall_forall in Hall. split.
  - destruct (MapM_fresh_rows (merge_with s) fst (λ row, merged s row.2) rows h)
      as (out & ext & Hrun & Hout & Hlocs & Hnd).
    { intros [key grouped] h' Hin. apply merge_with_Ok. by apply (Hall _ Hin). }
    exists out, ext. split; [done|]. split; [done|]. split; [|done].
    eapply Forall_impl; [exact Hlocs|]. simpl. intros l ?. lia.
  - intros i row m Hrow Hm.
    set (Φ := λ (i : nat) (a : K * container) (σ : gmap loc (list V)),
                ∃ row, rows !! i = Some row ∧ row_done s row a σ).
    assert (pool_owns (merge_with s <$> rows) Φ h) as Hpool.
    { apply pool_owns_init. intros j mj.
      rewrite list_lookup_fmap.
      destruct (rows !! j) as [[key grouped]|] eqn:Hj; [|done].
      intros [= <-]. eapply owns_mono; [|apply owns_merge_with].
      - intros a σ Ha. by exists (key, grouped).
      - apply (Hall (key, grouped)). by eapply list_elem_of_lookup_2. }
    apply (pool_owns_interleave schedule) in Hpool.
    destruct (pool_owns_lookup _ _ _ _ _ Hpool Hm) as (σ & Hown & Hσ).
    destruct (owns_exec _ _ _ _ Hown Hσ)
      as ([key c] & h' & σ' & Hrun & (row' & Hrow' & Hkey & Hholds) & Hσ').
    assert (row' = row) as -> by congruence. simpl in *. subst key.
    exists c, h'. split; [done|]. by eapply snapshot_holds.
Qed.

Lemma check_inputs_mismatch {T} self (pcolls : list (tag * pvalue T)) :
  truthy (pipeline self) = true →
  Forall (λ pcoll, is_pcoll pcoll = true) pcolls.*2 →
  Exists (foreign_to self) pcolls.*2 →
  check_inputs (V := V) self pcolls = Throw AssertionError.
Proof.
  intros Htruthy.
  induction pcolls as [|[tg [pc|]] pcolls IH]; simpl.
  - by intros _ ?%Exists_nil.
  - rewrite Forall_cons, Exists_cons. intros [_ Hall] Hex.
    rewrite Htruthy. simpl.
    destruct (decide (PyPipeline (PCollection.pipeline pc) = pipeline self))
      as [Heq|Hne].
    + rewrite bool_decide_eq_true_2 by done. simpl.
      apply IH; [done|]. destruct Hex as [Hne|?]; [|done]. by destruct Hne.
    + by rewrite bool_decide_eq_false_2 by done.
  - rewrite Forall_cons. by intros [? _].
Qed.

(** C4. When an explicit pipeline was given to CoGroupByKey and some
    input collection belongs to another pipeline, the checking loop of
    [expand] raises AssertionError, and this raise is all [expand] does:
    it comes before the inputs are paired, united and grouped, before
    any container is built and any list allocated. *)
Theorem expand_context_mismatch self pcolls h :
  truthy (pipeline self) = true →
  Forall (λ pcoll, is_pcoll pcoll = true) (inputs_of pcolls) →
  Exists (foreign_to self) (inputs_of pcolls) →
  check_inputs (V := V) self (tagged_inputs pcolls) = Throw AssertionError
  ∧ expand self pcolls = Throw AssertionError
  ∧ exec (expand self pcolls) h = Raise AssertionError.
Proof.
  rewrite <-tagged_inputs_snd. intros Htruthy Hall Hex.
  pose proof (check_inputs_mismatch self _ Htruthy Hall Hex) as Hcheck.
  split; [done|].
  by rewrite (expand_check_raises _ _ _ Hcheck).
Qed.

Lemma check_inputs_falsy {T} self (pcolls : list (tag * pvalue T)) :
  truthy (pipeline self) = false →
  check_inputs (V := V) self pcolls
  = for_each pcolls (λ tp, _check_pcollection tp.2).
Proof.
  intros Hfalsy.
  induction pcolls as [|[tg pcoll] pcolls IH]; simpl; [done|].
  rewrite Hfalsy, IH. by destruct pcoll.
Qed.

(** C10. When the constructor received no pipeline, or [None], or any
    other falsy value, the loop of [expand] only checks that the inputs
    are PCollections: the assertion on their pipelines is never
    evaluated. Collections pass the loop whatever their pipelines are,
    and [expand] raises AssertionError on no argument at all. *)
Theorem expand_without_pipeline kwargs self :
  __init__ kwargs = Ok self →
  truthy (default PyNone (kwargs !! "pipeline")) = false →
  (∀ pcolls : list (tag * pvalue (K * V)),
     check_inputs (V := V) self pcolls
     = for_each pcolls (λ tp, _check_pcollection tp.2))
  ∧ (∀ pcolls h,
       Forall (λ pcoll, is_pcoll pcoll = true) (inputs_of pcolls) →
       exec (check_inputs self (tagged_inputs pcolls)) h = Ok (tt, h))
  ∧ (∀ pcolls h, exec (expand self pcolls) h ≠ Raise AssertionError).
Proof.
  unfold __init__. case_decide; [|done]. intros [= <-] Hfalsy.
  set (self := {| pipeline := default PyNone (kwargs !! "pipeline") |}).
  assert (∀ pcoll : pvalue (K * V),
            is_pcoll pcoll = true → owned_by self pcoll) as Hown.
  { intros [pc|]; [|done]. simpl. intros _ Htruthy. congruence. }
  split; [|split].
  - intros pcolls. apply check_inputs_falsy. exact Hfalsy.
  - intros pcolls h Hall. apply check_inputs_Ok.
    rewrite tagged_inputs_snd.
    eapply Forall_impl; [exact Hall|]. apply Hown.
  - intros pcolls h.
    destruct (check_inputs_outcome self (tagged_inputs pcolls) h)
      as [Hall|(before & pcoll & after & _ & _ & Hp & Hrun)].
    + rewrite tagged_inputs_snd in Hall. rewrite expand_checked by done.
      destruct (Flatten _ _) as [union|e] eqn:Hunion.
      * destruct (expand_Ok self pcolls h Hall) as (rows & ext & Hrun & _).
        { apply union_accepts; [done|]. by exists union. }
        rewrite expand_checked, Hunion in Hrun by done. by rewrite Hrun.
      * pose proof (Flatten_inv (pipeline self)
                      (paired_inputs (tagged_inputs pcolls))) as Hinv.
        rewrite Hunion in Hinv. destruct Hinv as [->|(_ & _ & ->)]; done.
    + rewrite (expand_check_failed _ _ _ _ Hrun).
      destruct (is_pcoll pcoll) eqn:Hpc; [|done].
      destruct Hp. by apply Hown.
Qed.
End CoGroupByKeyProperties.

(** ** The constructor *)

(** C6. The constructor of CoGroupByKey raises ValueError exactly when
    it is given a keyword other than [pipeline]; with [pipeline] alone,
    or with no keyword at all, it succeeds and keeps the pipeline ([None]
    when absent). *)
Theorem init_unknown_keyword (kwargs : gmap string pyobj) :
  (CoGroupByKey.__init__ kwargs = Raise ValueError
   ↔ ∃ name, name ≠ "pipeline" ∧ is_Some (kwargs !! name))
  ∧ (CoGroupByKey.__init__ kwargs
     = Ok {| CoGroupByKey.pipeline := default PyNone (kwargs !! "pipeline") |}
     ↔ ∀ name, is_Some (kwargs !! name) → name = "pipeline")
  ∧ (∀ e, CoGroupByKey.__init__ kwargs = Raise e → e = ValueError).
Proof.
  unfold CoGroupByKey.__init__.
  assert (delete "pipeline" kwargs = ∅
          ↔ ∀ name, is_Some (kwargs !! name) → name = "pipeline") as Hempty.
  { rewrite map_empty. split.
    - intros Hdel name Hname. destruct (decide (name = "pipeline")); [done|].
      specialize (Hdel name). rewrite lookup_delete_ne in Hdel by done.
      rewrite Hdel in Hname. by destruct Hname.
    - intros Hall name. destruct (decide ("pipeline" = name)) as [<-|Hne].
      + apply lookup_delete_eq.
      + rewrite lookup_delete_ne by done.
        destruct (kwargs !! name) eqn:Hname; [|done].
        destruct Hne. symmetry. apply Hall. by rewrite Hname. }
  case_decide as Hdel; (split; [|split]).
  - split; [done|]. intros (name & Hne & Hname).
    destruct Hne. by apply Hempty.
  - by rewrite <-Hempty.
  - done.
  - split; [intros _|done].
    destruct (map_choose _ Hdel) as (name & o & [Hne Hname]%lookup_delete_Some).
    exists name. split; [done|]. by rewrite Hname.
  - by rewrite <-Hempty.
  - by intros e [= <-].
Qed.

(** * Keys, Values, KvSwap and RemoveDuplicates *)

Section Projections.
Context {A B : Type}.
Implicit Types x : list (A * B).

(** C8. Swapping the components of every pair twice gives the
    collection back; Keys and Values give the first and the second
    components, element by element, each without regard to the other
    component, and together they hold the whole collection. *)
Theorem KvSwap_involutive x :
  KvSwap (KvSwap x) = x
  ∧ (∀ i k v, x !! i = Some (k, v) →
       Keys x !! i = Some k ∧ Values x !! i = Some v)
  ∧ length (Keys x) = length x
  ∧ length (Values x) = length x
  ∧ zip (Keys x) (Values x) = x
  ∧ Keys (KvSwap x) = Values x
  ∧ Values (KvSwap x) = Keys x.
Proof.
  unfold KvSwap, Keys, Values, Map.
  split; [|split; [|split; [|split; [|split; [|split]]]]].
  - rewrite map_map. simpl. rewrite <-(map_id x) at 2.
    apply map_ext. by intros [k v].
  - intros i k v Hi. split.
    + change (map ?f x) with (f <$> x). by rewrite list_lookup_fmap, Hi.
    + change (map ?f x) with (f <$> x). by rewrite list_lookup_fmap, Hi.
  - apply length_map.
  - apply length_map.
  - induction x as [|[k v] x IH]; [done|]. simpl. by rewrite IH.
  - rewrite map_map. done.
  - rewrite map_map. done.
Qed.
End Projections.

Section RemoveDuplicatesFacts.
Context {T : Type} `{EqDecision T}.
Implicit Types pcoll : list T.

Lemma RemoveDuplicates_groups pcoll :
  RemoveDuplicates pcoll = (GroupByKey (Map (λ v, (v, tt)) pcoll)).*1.
Proof.
  unfold RemoveDuplicates, Keys, CombinePerKey, Map.
  change (map ?f ?l) with (f <$> l). by rewrite <-list_fmap_compose.
Qed.

(** C7. RemoveDuplicates returns the distinct elements of its input:
    the same elements, each once, so never more than the input holds,
    and as many exactly when the input has no duplicates. *)
Theorem RemoveDuplicates_distinct pcoll :
  (∀ x, x ∈ RemoveDuplicates pcoll ↔ x ∈ pcoll)
  ∧ NoDup (RemoveDuplicates pcoll)
  ∧ length (RemoveDuplicates pcoll) ≤ length pcoll
  ∧ (length (RemoveDuplicates pcoll) = length pcoll ↔ NoDup pcoll).
Proof.
  rewrite RemoveDuplicates_groups.
  destruct (GroupByKey_spec (Map (λ v, (v, tt)) pcoll)) as (Hnd & Hkeys & _).
  assert ((Map (λ v, (v, tt)) pcoll).*1 = pcoll) as Hfst.
  { unfold Map. change (map ?f ?l) with (f <$> l).
    rewrite <-list_fmap_compose. apply list_fmap_id. }
  rewrite Hfst in Hkeys.
  set (out := (GroupByKey (Map (λ v, (v, tt)) pcoll)).*1) in *.
  assert (out ⊆+ pcoll) as Hsub.
  { apply NoDup_submseteq; [done|]. intros x. apply Hkeys. }
  split; [done|]. split; [done|]. split; [by apply submseteq_length|].
  split.
  - intros Hlen. rewrite <-(submseteq_length_Permutation out pcoll); [done|done|lia].
  - intros Hnd'. apply Nat.le_antisymm; [by apply submseteq_length|].
    apply submseteq_length, NoDup_submseteq; [done|]. intros x. apply Hkeys.
Qed.
End RemoveDuplicatesFacts.

(** * The model at work *)

Section Runs.
Import CoGroupByKey Examples.

(** The sequence input of Section 8. *)
Example expand_sequence_run :
  run (expand self_none seq_input)
  = Ok [(1%Z, VTuple [["x"]; ["y"; "z"]])].
Proof. vm_compute. reflexivity. Qed.

(** The mapping input of Section 8. *)
Example expand_mapping_run :
  run (expand self_none map_input)
  = Ok [(1%Z, VDict (<[TagStr "a" := ["x"]]> (<[TagStr "b" := []]> ∅)))].
Proof. vm_compute. reflexivity. Qed.

(** Several keys, met in the order of their first occurrence. *)
Example expand_keys_run :
  run (expand self_none keys_input)
  = Ok [(1%Z, VTuple [["x"]; ["y"; "z"]]);
        (2%Z, VTuple [["w"]; []]);
        (3%Z, VTuple [[]; ["u"]])].
Proof. vm_compute. reflexivity. Qed.

(** A tag the container was not built for stops the reconstructor. *)
Example merge_foreign_tag :
  exec (merge_with (DictOf [TagStr "a"]) (1%Z, [(TagStr "c", "x")])) []
  = Raise KeyError
  ∧ exec (merge_with (TupleOf 2) (1%Z, [(TagInt 2, "x")])) []
    = Raise IndexError.
Proof. split; vm_compute; reflexivity. Qed.

(** Inputs of two pipelines are refused by the union step when the
    transform has no pipeline, by the checking loop when it has one. *)
Example expand_mixed_run :
  run (expand self_none mixed_input) = Raise ValueError
  ∧ run (expand self_seven mixed_input) = Raise AssertionError.
Proof. split; vm_compute; reflexivity. Qed.

(** No inputs: the pipeline must come from the constructor. *)
Example expand_empty_run :
  run (expand (K := Z) (V := string) self_none (Sequence [])) = Raise ValueError
  ∧ run (expand (K := Z) (V := string) self_none (Mapping ∅))
    = Raise ValueError
  ∧ run (expand (K := Z) (V := string) self_seven (Sequence [])) = Ok [].
Proof. repeat split; vm_compute; reflexivity. Qed.

(** An input that is not a PCollection is refused. *)
Example expand_not_a_pcollection :
  run (expand self_none (Sequence [pc 0 [(1%Z, "x")]; NotPColl]))
  = Raise TransformError.
Proof. vm_compute. reflexivity. Qed.

(** Two rows reconstructed with their steps interleaved: the rows end up
    on lists at alternating addresses, and each reads as it should. *)
Example interleave_run :
  interleave [0; 1; 1; 0; 1; 0; 0] (merge_with (TupleOf 2) <$> two_rows) []
  = ([Return (1%Z, Tuple [0; 3]); Return (2%Z, Tuple [1; 2])],
     [["x"]; []; ["z"]; ["y"]])
  ∧ snapshot [["x"]; []; ["z"]; ["y"]] (Tuple [0; 3]) = VTuple [["x"]; ["y"]]
  ∧ snapshot [["x"]; []; ["z"]; ["y"]] (Tuple [1; 2]) = VTuple [[]; ["z"]].
Proof. repeat split; vm_compute; reflexivity. Qed.

(** A negative index counts from the end of a tuple, as in Python. *)
Example tuple_getitem_run :
  tuple_getitem [10; 20; 30] (-1) = Ok 30
  ∧ tuple_getitem [10; 20; 30] 2 = Ok 30
  ∧ tuple_getitem [10; 20; 30] 3 = Raise IndexError
  ∧ tuple_getitem [10; 20; 30] (-4) = Raise IndexError.
Proof. repeat split; vm_compute; reflexivity. Qed.

Example RemoveDuplicates_run :
  RemoveDuplicates [3; 1; 3; 2; 1] = [3; 1; 2].
Proof. vm_compute. reflexivity. Qed.
End Runs.

(** * The theorems at concrete inputs *)

Section Witnesses.
Import CoGroupByKey Examples.

Lemma expand_one_row_per_key_witness :
  inputs_ok self_none keys_input
  ∧ one_pipeline self_none keys_input
  ∧ ∃ rows h',
      exec (expand self_none keys_input) [] = Ok (rows, h')
      ∧ ∀ k, rows_for k rows
             = if decide (k ∈ input_keys keys_input) then 1 else 0.
Proof.
  assert (inputs_ok self_none keys_input) as Hok
    by (unfold inputs_ok; simpl; repeat constructor; discriminate).
  assert (one_pipeline self_none keys_input) as Hone
    by (exists 0; split; [repeat constructor|discriminate]).
  split; [exact Hok|]. split; [exact Hone|].
  exact (expand_one_row_per_key self_none keys_input [] Hok Hone).
Defined.

Lemma expand_uniform_shape_witness :
  inputs_ok self_none map_input
  ∧ one_pipeline self_none map_input
  ∧ ∃ rows h',
      exec (expand self_none map_input) [] = Ok (rows, h')
      ∧ (∀ k, k ∈ input_keys map_input → ∃ c, (k, c) ∈ rows)
      ∧ ∀ k c, (k, c) ∈ rows →
          has_shape (shape_of map_input) (snapshot h' c)
          ∧ ∀ tg pcoll, input_at map_input tg = Some pcoll →
              slot (snapshot h' c) tg
              = Some (values_under k (elements_of pcoll))
              ∧ (k ∉ (elements_of pcoll).*1 →
                 slot (snapshot h' c) tg = Some []).
Proof.
  assert (inputs_ok self_none map_input) as Hok
    by (vm_compute; repeat constructor; discriminate).
  assert (one_pipeline self_none map_input) as Hone
    by (exists 0; split; vm_compute; [repeat constructor|discriminate]).
  split; [exact Hok|]. split; [exact Hone|].
  exact (expand_uniform_shape self_none map_input [] Hok Hone).
Defined.

Lemma expand_sequence_source_order_witness :
  inputs_ok self_none seq_input
  ∧ one_pipeline self_none seq_input
  ∧ ∃ rows h',
      exec (expand self_none seq_input) [] = Ok (rows, h')
      ∧ (∀ k, k ∈ input_keys seq_input → ∃ c, (k, c) ∈ rows)
      ∧ ∀ k c, (k, c) ∈ rows →
          snapshot h' c
          = VTuple [values_under k [(1%Z, "x")];
                    values_under k [(1%Z, "y"); (1%Z, "z")]].
Proof.
  assert (inputs_ok self_none seq_input) as Hok
    by (unfold inputs_ok; simpl; repeat constructor; discriminate).
  assert (one_pipeline self_none seq_input) as Hone
    by (exists 0; split; [repeat constructor|discriminate]).
  split; [exact Hok|]. split; [exact Hone|].
  destruct (expand_sequence_source_order self_none _ [] Hok Hone)
    as (rows & h' & Hrun & Hkeys & Hrows & _).
  exists rows, h'. split; [exact Hrun|]. split; [exact Hkeys|exact Hrows].
Defined.

Lemma merge_lookups_succeed_witness :
  Forall (λ tv : tag * string, valid_tag (DictOf [TagStr "a"; TagStr "b"]) tv.1)
         [(TagStr "b", "y"); (TagStr "a", "x")]
  ∧ ∃ c h',
      exec (merge_with (DictOf [TagStr "a"; TagStr "b"])
              (1%Z, [(TagStr "b", "y"); (TagStr "a", "x")])) []
      = Ok ((1%Z, c), h')
      ∧ Forall (λ tv, ∃ l, getitem c tv.1 = Ok l ∧ is_Some (h' !! l))
               [(TagStr "b", "y"); (TagStr "a", "x")].
Proof.
  assert (Forall (λ tv : tag * string,
                    valid_tag (DictOf [TagStr "a"; TagStr "b"]) tv.1)
                 [(TagStr "b", "y"); (TagStr "a", "x")]) as Hall
    by (repeat constructor; simpl; set_solver).
  split; [exact Hall|].
  exact (merge_lookups_succeed _ 1%Z _ [] Hall).
Defined.

Lemma reconstructor_rows_independent_witness :
  Forall (λ row : Z * list (tag * string),
            Forall (λ tv, valid_tag (TupleOf 2) tv.1) row.2) two_rows
  ∧ (∃ out ext,
       exec (MapM (merge_with (TupleOf 2)) two_rows) [] = Ok (out, [] ++ ext)
       ∧ Forall2 (λ row o,
                    o.1 = row.1
                    ∧ snapshot ([] ++ ext) o.2 = merged (TupleOf 2) row.2)
                 two_rows out
       ∧ Forall (λ l, length ([] : heap string) ≤ l)
                (out.*2 ≫= container_locs)
       ∧ NoDup (out.*2 ≫= container_locs))
  ∧ (∀ i row m,
       two_rows !! i = Some row →
       (interleave [0; 1; 1; 0; 1; 0; 0; 1]
          (merge_with (TupleOf 2) <$> two_rows) []).1 !! i = Some m →
       ∃ c h',
         exec m (interleave [0; 1; 1; 0; 1; 0; 0; 1]
                   (merge_with (TupleOf 2) <$> two_rows) []).2
         = Ok ((row.1, c), h')
         ∧ snapshot h' c = merged (TupleOf 2) row.2).
Proof.
  assert (Forall (λ row : Z * list (tag * string),
                    Forall (λ tv, valid_tag (TupleOf 2) tv.1) row.2) two_rows)
    as Hall.
  { repeat constructor; simpl.
    - exists 0. split; [reflexivity|lia].
    - exists 1. split; [reflexivity|lia].
    - exists 1. split; [reflexivity|lia]. }
  split; [exact Hall|].
  exact (reconstructor_rows_independent (TupleOf 2) two_rows []
           [0; 1; 1; 0; 1; 0; 0; 1] Hall).
Defined.

Lemma expand_context_mismatch_witness :
  truthy (pipeline self_seven) = true
  ∧ Forall (λ pcoll, is_pcoll pcoll = true)
           (inputs_of mixed_input)
  ∧ Exists (foreign_to self_seven) (inputs_of mixed_input)
  ∧ check_inputs (V := string) self_seven (tagged_inputs mixed_input)
    = Throw AssertionError
  ∧ expand (V := string) self_seven mixed_input = Throw AssertionError
  ∧ exec (expand self_seven mixed_input) ([] : heap string)
    = Raise AssertionError.
Proof.
  assert (truthy (pipeline self_seven) = true) as Htruthy by reflexivity.
  assert (Forall (λ pcoll, is_pcoll pcoll = true)
                 (inputs_of mixed_input)) as Hall
    by (simpl; repeat constructor).
  assert (Exists (foreign_to self_seven) (inputs_of mixed_input))
    as Hex by (simpl; right; left; simpl; discriminate).
  split; [exact Htruthy|]. split; [exact Hall|]. split; [exact Hex|].
  exact (expand_context_mismatch self_seven mixed_input [] Htruthy Hall Hex).
Defined.

Lemma expand_without_pipeline_witness :
  __init__ ∅ = Ok self_none
  ∧ truthy (default PyNone ((∅ : gmap string pyobj) !! "pipeline")) = false
  ∧ Forall (λ pcoll, is_pcoll pcoll = true) (inputs_of mixed_input)
  ∧ check_inputs (V := string) self_none (tagged_inputs mixed_input)
    = for_each (tagged_inputs mixed_input) (λ tp, _check_pcollection tp.2)
  ∧ exec (check_inputs self_none (tagged_inputs mixed_input))
         ([] : heap string)
    = Ok (tt, [])
  ∧ exec (expand self_none mixed_input) ([] : heap string)
    ≠ Raise AssertionError.
Proof.
  assert (__init__ ∅ = Ok self_none) as Hinit by reflexivity.
  assert (truthy (default PyNone ((∅ : gmap string pyobj) !! "pipeline"))
          = false) as Hfalsy by reflexivity.
  assert (Forall (λ pcoll, is_pcoll pcoll = true) (inputs_of mixed_input))
    as Hall by (simpl; repeat constructor).
  destruct (expand_without_pipeline (K := Z) (V := string) ∅ self_none
              Hinit Hfalsy) as (Hloop & Hpass & Hnever).
  split; [exact Hinit|]. split; [exact Hfalsy|]. split; [exact Hall|].
  split; [exact (Hloop _)|].
  split; [exact (Hpass mixed_input [] Hall)|exact (Hnever mixed_input [])].
Defined.
End Witnesses.


(** * Further properties of the reconstructor *)

Section ReconstructorEdges.
Context {K V : Type}.
Implicit Types h : heap V.
Implicit Types grouped : list (tag * V).
Import CoGroupByKey.

Lemma exec_merge_with s (key : K) grouped h :
  exec (merge_with s (key, grouped)) h
  = match exec (result_ctor_of s) h with
    | Ok (c, h1) =>
        match exec (fill c grouped) h1 with
        | Ok (_, h2) => Ok ((key, c), h2)
        | Raise e => Raise e
        end
    | Raise e => Raise e
    end.
Proof.
  destruct s as [tags|size]; simpl; unfold _merge_tagged_vals_under_key;
    rewrite exec_bind; (destruct (exec _ h) as [[c h1]|e]; [|done]);
    rewrite exec_bind; by destruct (exec _ h1) as [[[] h2]|e].
Qed.

(** A loop over a list in two parts. *)
Lemma exec_for_each_app {A} (body : A → M V unit) (l1 l2 : list A) h :
  exec (for_each (l1 ++ l2) body) h
  = match exec (for_each l1 body) h with
    | Ok (_, h1) => exec (for_each l2 body) h1
    | Raise e => Raise e
    end.
Proof.
  revert h. induction l1 as [|x l1 IH]; intros h; [done|].
  rewrite <-app_comm_cons. cbn [for_each]. rewrite !exec_bind.
  destruct (exec (body x) h) as [[[] h1]|e]; [apply IH|done].
Qed.

Lemma exec_fill_app c grouped1 grouped2 h :
  exec (fill c (grouped1 ++ grouped2)) h
  = match exec (fill c grouped1) h with
    | Ok (_, h1) => exec (fill c grouped2) h1
    | Raise e => Raise e
    end.
Proof. apply exec_for_each_app. Qed.

(** Indexing a tuple inside its bounds, from the front or from the
    end. *)
Lemma tuple_getitem_seq (n size : nat) (i : Z) :
  (- Z.of_nat size ≤ i < Z.of_nat size)%Z →
  tuple_getitem (seq n size) i
  = Ok (n + Z.to_nat (if (i <? 0)%Z then i + Z.of_nat size else i)%Z).
Proof.
  intros Hi. unfold tuple_getitem. rewrite length_seq.
  set (j := (if (i <? 0)%Z then (i + Z.of_nat size)%Z else i)).
  assert (0 ≤ j < Z.of_nat size)%Z as Hj.
  { unfold j. destruct (Z.ltb_spec i 0); lia. }
  rewrite (proj2 (Z.ltb_ge j 0)) by lia.
  rewrite (proj2 (lookup_seq n size (Z.to_nat j) (n + Z.to_nat j))); [done|].
  split; [done|lia].
Qed.

(** Indexing a tuple outside its bounds. *)
Lemma tuple_getitem_out {A} (t : list A) (i : Z) :
  ¬ (- Z.of_nat (length t) ≤ i < Z.of_nat (length t))%Z →
  tuple_getitem t i = Raise IndexError.
Proof.
  intros Hi. unfold tuple_getitem.
  set (j := (if (i <? 0)%Z then (i + Z.of_nat (length t))%Z else i)).
  destruct (Z.ltb_spec j 0) as [Hj|Hj]; [done|].
  rewrite lookup_ge_None_2; [done|].
  unfold j in *. destruct (Z.ltb_spec i 0); lia.
Qed.

(** What a constructor builds, seen through [result_value[tag]]: the
    lookups that succeed find new lists, the others raise as
    [lookup_failure] says. *)
Lemma result_ctor_of_Ok s h :
  ∃ c,
    exec (result_ctor_of s) h = Ok (c, h ++ replicate (arity s) [])
    ∧ (∀ tg l, getitem c tg = Ok l →
         length h ≤ l < length h + arity s)
    ∧ (∀ tg, lookup_failure s tg = None → ∃ l, getitem c tg = Ok l)
    ∧ (∀ tg e, lookup_failure s tg = Some e → getitem c tg = Raise e).
Proof.
  destruct s as [tags|size]; simpl.
  - destruct (result_ctor_dict_Ok (V := V) tags h)
      as (d & Hrun & Hin & Hfresh & _).
    exists (Dict d). split; [done|]. split; [|split].
    + intros tg l. simpl. destruct (d !! tg) as [l'|] eqn:Hl; [|done].
      intros [= <-]. by apply Hfresh in Hl as [_ ?].
    + intros tg. case_decide as Htg; [|done]. intros _.
      destruct (Hin tg Htg) as [l Hl]. exists l. simpl. by rewrite Hl.
    + intros tg e. case_decide as Htg; [done|]. intros [= <-]. simpl.
      destruct (d !! tg) as [l|] eqn:Hl; [|done].
      by apply Hfresh in Hl as [? _].
  - exists (Tuple (seq (length h) size)).
    split; [apply result_ctor_tuple_Ok|]. split; [|split].
    + apply getitem_tuple_range.
    + intros [i|s]; [|done]. case_decide as Hi; [|done]. intros _.
      eexists. apply tuple_getitem_seq, Hi.
    + intros [i|s] e.
      * case_decide as Hi; [done|]. intros [= <-].
        apply tuple_getitem_out. by rewrite length_seq.
      * by intros [= <-].
Qed.

(** X1. The reconstructor stops at the first entry of the grouped row
    whose tag its container cannot look up, with the exception of that
    lookup: KeyError for a dict, IndexError or TypeError for a tuple.
    No row comes out, whatever follows the entry. *)
Theorem merge_first_failure s (key : K) pre tg (v : V) post e h :
  Forall (λ tv, lookup_failure s tv.1 = None) pre →
  lookup_failure s tg = Some e →
  exec (merge_with s (key, pre ++ (tg, v) :: post)) h = Raise e.
Proof.
  intros Hpre Htg. rewrite exec_merge_with.
  destruct (result_ctor_of_Ok s h) as (c & -> & Hrange & Hok & Hfail).
  rewrite exec_fill_app, fill_Ok.
  - by rewrite (fill_Raise _ _ _ _ _ _ (Hfail _ _ Htg)).
  - eapply Forall_impl; [exact Hpre|]. intros tv Htv.
    destruct (Hok _ Htv) as [l Hl]. exists l. split; [done|].
    apply Hrange in Hl. rewrite length_app, length_replicate. lia.
Qed.

(** X2. A tuple container takes a negative position as Python does: the
    values tagged [j - size] land in slot [j], after or before the
    values tagged [j] as the grouped row orders them. Every tag between
    [-size] and [size - 1] is served without an error. *)
Theorem merge_tuple_both_ends (key : K) grouped size h :
  Forall (λ tv, lookup_failure (TupleOf size) tv.1 = None) grouped →
  ∃ c h',
    exec (_merge_tagged_vals_under_key (key, grouped)
            result_ctor_tuple size) h = Ok ((key, c), h')
    ∧ snapshot h' c
      = VTuple ((λ j : nat,
                   (filter (λ tv,
                      tv.1 = TagInt (Z.of_nat j)
                      ∨ tv.1 = TagInt (Z.of_nat j - Z.of_nat size))
                    grouped).*2) <$> seq 0 size).
Proof.
  intros Hall.
  set (t := seq (length h) size).
  assert (Hget : ∀ tv : tag * V, lookup_failure (TupleOf size) tv.1 = None →
            ∃ i, tv.1 = TagInt i
                 ∧ (- Z.of_nat size ≤ i < Z.of_nat size)%Z
                 ∧ getitem (Tuple t) tv.1
                   = Ok (length h + Z.to_nat
                           (if (i <? 0)%Z then i + Z.of_nat size else i)%Z)).
  { intros [[i|s] v]; simpl; [|done]. case_decide as Hi; [|done]. intros _.
    exists i. split; [done|]. split; [done|]. by apply tuple_getitem_seq. }
  eexists (Tuple t), _. split.
  - apply merge_fresh.
    + apply result_ctor_tuple_Ok.
    + apply getitem_tuple_range.
    + eapply Forall_impl; [exact Hall|]. intros tv Htv.
      destruct (Hget _ Htv) as (i & _ & _ & Hl). eauto.
  - simpl. f_equal.
    erewrite (omap_Forall_Some _ (λ l, appended (Tuple t) l grouped)).
    2:{ apply Forall_forall.
        intros l (i & (-> & Hi)%lookup_seq)%list_elem_of_lookup_1.
        apply lookup_merged. lia. }
    unfold t at 2.
    replace (seq (length h) size) with (Nat.add (length h) <$> seq 0 size)
      by (rewrite fmap_add_seq; f_equal; lia).
    rewrite <-list_fmap_compose. apply list_fmap_ext.
    intros j' j (-> & Hj)%lookup_seq. simpl.
    unfold appended. f_equal. apply filter_Forall_iff.
    eapply Forall_impl; [exact Hall|]. intros tv Htv.
    destruct (Hget _ Htv) as (i & Hi & Hrange & ->). rewrite Hi.
    destruct (Z.ltb_spec i 0); split.
    + intros [= ?]. right. f_equal. lia.
    + intros [[= ?]|[= ?]]; f_equal; lia.
    + intros [= ?]. left. f_equal. lia.
    + intros [[= ?]|[= ?]]; f_equal; lia.
Qed.
End ReconstructorEdges.

(** ** Nothing is lost, nothing is doubled *)

Section Conservation.
Context {K V : Type} `{EqDecision K}.
Implicit Types h : heap V.
Import CoGroupByKey.

Lemma bind_Forall_ext {A B} (f g : A → list B) (l : list A) :
  Forall (λ x, f x = g x) l → l ≫= f = l ≫= g.
Proof.
  induction 1 as [|x l Hx _ IH]; [done|].
  by rewrite !bind_cons, Hx, IH.
Qed.

Lemma concat_fmap_bind {A B} (f : A → list B) (l : list A) :
  concat (f <$> l) = l ≫= f.
Proof.
  induction l as [|x l IH]; [done|].
  by rewrite fmap_cons, bind_cons, <-IH.
Qed.

(** A list of pairs, sorted out by first component over a duplicate-free
    list of all its first components, is the same list up to order. *)
Lemma partition_by_first {A B} `{EqDecision A} (ks : list A)
    (l : list (A * B)) :
  NoDup ks → Forall (λ x, x.1 ∈ ks) l →
  ks ≫= (λ k, (filter (λ x, x.1 = k) l).*2) ≡ₚ l.*2.
Proof.
  revert l. induction ks as [|k ks IH]; intros l Hnd Hall.
  - destruct l as [|x l]; [done|].
    apply Forall_cons in Hall as [[]%elem_of_nil _].
  - apply NoDup_cons in Hnd as [Hk Hnd]. rewrite bind_cons.
    transitivity ((filter (λ x, x.1 = k) l ++ filter (λ x, ¬ x.1 = k) l).*2);
      [|by rewrite filter_app_complement].
    rewrite fmap_app. f_equiv.
    rewrite <-(IH (filter (λ x, ¬ x.1 = k) l) Hnd).
    + rewrite (bind_Forall_ext _
        (λ k', (filter (λ x, x.1 = k') (filter (λ x, ¬ x.1 = k) l)).*2) ks);
        [done|].
      apply Forall_forall. intros k' Hk'.
      f_equal. rewrite list_filter_filter. apply list_filter_iff.
      intros x. split; [|tauto]. intros ->. split; [done|].
      intros ->. done.
    + apply Forall_forall. intros x [Hne Hx]%list_elem_of_filter.
      rewrite Forall_forall in Hall. apply Hall in Hx.
      apply elem_of_cons in Hx as [?|?]; [done|done].
Qed.

Lemma snd_fmap_fst {A B} (f : A → B) (l : list (A * B)) :
  Forall (λ p, p.2 = f p.1) l → l.*2 = f <$> l.*1.
Proof.
  induction 1 as [|[a b] l Hx _ IH]; [done|].
  rewrite !fmap_cons. cbn [fst snd] in *. by rewrite Hx, IH.
Qed.

(** X7. The reconstructor neither drops nor doubles a value: the
    sequences of the container it returns, put together, are the values
    of the grouped row, up to their order. *)
Theorem merge_conserves_values s (key : K) (grouped : list (tag * V)) h :
  Forall (λ tv, valid_tag s tv.1) grouped →
  ∃ c h',
    exec (merge_with s (key, grouped)) h = Ok ((key, c), h')
    ∧ concat (slots (snapshot h' c)) ≡ₚ grouped.*2.
Proof.
  intros Hall.
  destruct (merge_with_Ok s key grouped h Hall) as (c & ext & Hrun & Hsnap & _).
  exists c, (h ++ ext). split; [done|]. rewrite Hsnap. clear Hrun Hsnap.
  destruct s as [tags|size]; simpl in *.
  - unfold merged_dict. simpl.
    set (d := list_to_map ((λ tg, (tg, values_of tg grouped)) <$> tags)
              : gmap tag (list V)).
    assert (∀ tg x, d !! tg = Some x → x = values_of tg grouped ∧ tg ∈ tags)
      as Hd.
    { intros tg x (tg' & [= -> ->] & Htg)%elem_of_list_to_map_2%list_elem_of_fmap.
      done. }
    rewrite (snd_fmap_fst (λ tg, values_of tg grouped)), concat_fmap_bind.
    + apply partition_by_first; [apply NoDup_fst_map_to_list|].
      eapply Forall_impl; [exact Hall|]. intros tv Htv. simpl.
      apply list_elem_of_fmap.
      exists (tv.1, values_of tv.1 grouped). split; [done|].
      apply elem_of_map_to_list, elem_of_list_to_map_1'.
      * by intros y (tg' & [= <- ->] & _)%list_elem_of_fmap.
      * apply list_elem_of_fmap. by exists tv.1.
    + apply Forall_forall. intros [tg x] Hx%elem_of_map_to_list.
      by apply Hd in Hx as [-> _].
  - unfold merged_tuple. simpl.
    rewrite concat_fmap_bind.
    rewrite <-(partition_by_first
                 ((λ i, TagInt (Z.of_nat i)) <$> seq 0 size) grouped).
    + induction (seq 0 size) as [|i l IH]; [done|].
      by rewrite fmap_cons, !bind_cons, IH.
    + apply NoDup_fmap_2; [|apply NoDup_seq]. intros i j [= ?]. lia.
    + eapply Forall_impl; [exact Hall|]. intros tv (i & -> & Hi).
      apply list_elem_of_fmap. exists i. split; [done|].
      apply elem_of_seq. lia.
Qed.
End Conservation.

(** * Further properties of expand *)

Section ExpandEdges.
Context {K V : Type} `{EqDecision K}.
Implicit Types h : heap V.
Implicit Types pcolls : pvalueish (K * V).
Import CoGroupByKey.

(** Appending allocates nothing. *)
Lemma fill_length c (grouped : list (tag * V)) h u h' :
  exec (fill c grouped) h = Ok (u, h') → length h' = length h.
Proof.
  unfold fill. revert h.
  induction grouped as [|[tg v] grouped IH]; intros h; simpl.
  - by intros [= _ <-].
  - destruct (getitem c tg) as [l|e]; simpl; [|done].
    destruct (h !! l) as [vs|]; [|done].
    intros Hrun%IH. by rewrite Hrun, length_insert.
Qed.

(** A row costs as many new lists as its container has slots. *)
Lemma merge_with_length s (row : K * list (tag * V)) h r h' :
  exec (merge_with s row) h = Ok (r, h') →
  length h' = length h + arity s.
Proof.
  destruct row as [key grouped]. rewrite exec_merge_with.
  destruct (result_ctor_of_Ok (V := V) s h) as (c & -> & _).
  destruct (exec (fill c grouped) _) as [[u h2]|e] eqn:Hfill; [|done].
  intros [= _ <-]. apply fill_length in Hfill.
  by rewrite Hfill, length_app, length_replicate.
Qed.

(** The rows of a collection reconstructed one after the other, as they
    read at the end, and the lists they cost. *)
Lemma MapM_merge_with_rows s (rows : list (K * list (tag * V))) h :
  Forall (λ row, Forall (λ tv, valid_tag s tv.1) row.2) rows →
  ∃ out ext,
    exec (MapM (merge_with s) rows) h = Ok (out, h ++ ext)
    ∧ length ext = length rows * arity s
    ∧ read_rows (h ++ ext) out = (λ row, (row.1, merged s row.2)) <$> rows.
Proof.
  unfold MapM, read_rows. revert h.
  induction rows as [|[key grouped] rows IH]; intros h Hall.
  - exists [], []. by rewrite app_nil_r.
  - apply Forall_cons in Hall as [Hrow Hall].
    destruct (merge_with_Ok s key grouped h Hrow)
      as (c & ext1 & Hrun & Hsnap & Hlocs & _).
    pose proof (merge_with_length _ _ _ _ _ Hrun) as Hlen.
    rewrite length_app in Hlen.
    destruct (IH (h ++ ext1) Hall) as (out & ext2 & Hrun' & Hlen' & Hout).
    exists ((key, c) :: out), (ext1 ++ ext2). cbn [traverse].
    rewrite (bind_Ok _ _ _ _ _ Hrun), (bind_Ok _ _ _ _ _ Hrun').
    rewrite <-app_assoc in Hout. rewrite <-app_assoc.
    split; [done|]. split; [rewrite length_app; simpl; lia|].
    rewrite !fmap_cons, Hout. f_equal. simpl. f_equal.
    rewrite app_assoc, snapshot_app; [done|].
    eapply Forall_impl; [exact Hlocs|]. simpl. intros l ?.
    rewrite length_app. lia.
Qed.

(** The output of [expand], row by row: the groups of the tagged union
    in the order the grouper gives them, each read as the docstring
    promises. *)
Lemma expand_rows self pcolls h :
  inputs_ok self pcolls →
  one_pipeline self pcolls →
  ∃ rows ext,
    exec (expand self pcolls) h = Ok (rows, h ++ ext)
    ∧ length ext = length rows * length (inputs_of pcolls)
    ∧ read_rows (h ++ ext) rows
      = (λ g, (g.1, cogroup_value g.1 pcolls))
          <$> GroupByKey (tagged_union (tagged_inputs pcolls)).
Proof.
  intros Hok Hone. rewrite (expand_run _ _ _ Hok Hone).
  set (union := tagged_union (tagged_inputs pcolls)).
  destruct (GroupByKey_spec union) as (_ & _ & Hvals).
  destruct (MapM_merge_with_rows (shape_of pcolls) (GroupByKey union) h)
    as (rows & ext & Hrun & Hlen & Hrows).
  { apply Forall_forall. intros [k grouped] Hin. simpl.
    rewrite (Hvals _ _ Hin). apply Forall_forall.
    intros tv ([k' [tg v]] & -> & [_ Htv]%list_elem_of_filter)%list_elem_of_fmap.
    simpl. apply tagged_inputs_valid. by eapply tagged_union_tag. }
  exists rows, ext. split; [done|]. split.
  - rewrite Hlen. f_equal.
    + unfold read_rows in Hrows.
      by rewrite <-(length_fmap (λ row, (row.1, snapshot (h ++ ext) row.2))),
        Hrows, length_fmap.
    + rewrite <-tagged_inputs_snd, length_fmap.
      destruct pcolls as [m|l]; simpl; [apply length_fmap|].
      by rewrite length_enumerate.
  - rewrite Hrows. apply list_fmap_ext. intros i [k grouped] Hin. simpl.
    f_equal. apply list_elem_of_lookup_2 in Hin.
    rewrite (Hvals _ _ Hin). apply merged_cogroup_value.
Qed.

(** X4. On inputs it accepts, [expand] writes to no list that existed
    before it ran. It allocates one list for every slot of every row and none besides, and
    no two slots, of one row or of two, share a list. *)
Theorem expand_heap_frame self pcolls h :
  inputs_ok self pcolls →
  one_pipeline self pcolls →
  ∃ rows ext,
    exec (expand self pcolls) h = Ok (rows, h ++ ext)
    ∧ length ext = length rows * length (inputs_of pcolls)
    ∧ Forall (λ l, length h ≤ l < length h + length ext)
             (rows.*2 ≫= container_locs)
    ∧ NoDup (rows.*2 ≫= container_locs).
Proof.
  intros Hok Hone.
  destruct (expand_rows self pcolls h Hok Hone)
    as (rows & ext & Hrun & Hlen & _).
  destruct (expand_Ok self pcolls h Hok Hone)
    as (rows' & ext' & Hrun' & _ & _ & _ & Hlocs & Hnd).
  rewrite Hrun in Hrun'. injection Hrun' as <- <-%app_inv_head.
  by exists rows, ext.
Qed.

Lemma input_at_inputs_of pcolls tg pcoll :
  input_at pcolls tg = Some pcoll → pcoll ∈ inputs_of pcolls.
Proof.
  destruct pcolls as [m|l]; unfold inputs_of; simpl.
  - intros Hm%elem_of_map_to_list. apply list_elem_of_fmap. by exists (tg, pcoll).
  - destruct tg as [i|s]; [|done]. destruct (0 <=? i)%Z; [|done].
    apply list_elem_of_lookup_2.
Qed.

Lemma fmap_bind_compose {A B C} (f : A → B) (g : B → list C) (l : list A) :
  (f <$> l) ≫= g = l ≫= (g ∘ f).
Proof.
  induction l as [|x l IH]; [done|].
  by rewrite fmap_cons, !bind_cons, IH.
Qed.

(** X6. [expand] spreads the values of every input over the rows without
    losing or doubling one: the sequences found in an input's slot, row
    after row, are the values of that input, up to their order. *)
Theorem expand_conserves_values self pcolls h :
  inputs_ok self pcolls →
  one_pipeline self pcolls →
  ∃ rows h',
    exec (expand self pcolls) h = Ok (rows, h')
    ∧ ∀ tg pcoll, input_at pcolls tg = Some pcoll →
        read_rows h' rows ≫= (λ row, default [] (slot row.2 tg))
        ≡ₚ (elements_of pcoll).*2.
Proof.
  intros Hok Hone.
  destruct (expand_rows self pcolls h Hok Hone)
    as (rows & ext & Hrun & _ & Hrows).
  exists rows, (h ++ ext). split; [done|]. intros tg pcoll Hat.
  rewrite Hrows, fmap_bind_compose.
  set (union := tagged_union (tagged_inputs pcolls)).
  destruct (GroupByKey_spec union) as (Hnd & Hkeys & _).
  rewrite (bind_Forall_ext _
    ((λ k, values_under k (elements_of pcoll)) ∘ fst) (GroupByKey union)).
  2:{ apply Forall_forall. intros [k grouped] _. simpl.
      by rewrite slot_cogroup_value, Hat. }
  rewrite <-fmap_bind_compose.
  apply partition_by_first; [done|].
  apply Forall_forall. intros kv Hkv. apply Hkeys.
  unfold union. rewrite tagged_union_keys, tagged_inputs_snd.
  apply list_elem_of_fmap. exists kv. split; [done|].
  apply list_elem_of_bind. exists pcoll. split; [done|].
  by eapply input_at_inputs_of.
Qed.

(** X8. The keys of the output of [expand] are what RemoveDuplicates
    gives on the keys of all the inputs: the distinct keys, each once. *)
Theorem expand_keys_RemoveDuplicates self pcolls h :
  inputs_ok self pcolls →
  one_pipeline self pcolls →
  ∃ rows h',
    exec (expand self pcolls) h = Ok (rows, h')
    ∧ Keys rows ≡ₚ RemoveDuplicates (input_keys pcolls).
Proof.
  intros Hok Hone.
  destruct (expand_Ok self pcolls h Hok Hone)
    as (rows & ext & Hrun & Hnd & Hkeys & _).
  exists rows, (h ++ ext). split; [done|].
  rewrite RemoveDuplicates_groups.
  destruct (GroupByKey_spec (Map (λ v, (v, tt)) (input_keys pcolls)))
    as (Hnd' & Hkeys' & _).
  apply NoDup_Permutation; [done|done|]. intros k.
  change (Keys rows) with rows.*1. rewrite Hkeys, Hkeys'.
  unfold Map. change (map ?f ?l) with (f <$> l).
  by rewrite <-list_fmap_compose, list_fmap_id.
Qed.
End ExpandEdges.

(** ** The two calling conventions, and the single input *)

Section GroupByKeyNatural.
Context {K : Type} `{EqDecision K}.

Lemma group_add_fmap {X Y} (f : X → Y) (k : K) (x : X)
    (groups : list (K * list X)) :
  group_add k (f x) ((λ g : K * list X, (g.1, f <$> g.2)) <$> groups)
  = (λ g : K * list X, (g.1, f <$> g.2)) <$> group_add k x groups.
Proof.
  induction groups as [|[k' xs] groups IH]; [done|].
  rewrite fmap_cons. cbn [group_add fst snd].
  destruct (decide (k = k')) as [->|Hne].
  - rewrite fmap_cons. cbn [fst snd]. by rewrite fmap_app.
  - rewrite fmap_cons. cbn [fst snd]. by rewrite IH.
Qed.

(** Grouping commutes with a change of the values. *)
Lemma GroupByKey_fmap {X Y} (f : X → Y) (pcoll : list (K * X)) :
  GroupByKey ((λ kv : K * X, (kv.1, f kv.2)) <$> pcoll)
  = (λ g : K * list X, (g.1, f <$> g.2)) <$> GroupByKey pcoll.
Proof.
  unfold GroupByKey.
  induction pcoll as [|[k x] pcoll IH] using rev_ind; [done|].
  rewrite fmap_app, !foldl_app, IH. simpl. apply group_add_fmap.
Qed.
End GroupByKeyNatural.

Section Conventions.
Context {K V : Type} `{EqDecision K}.
Implicit Types h : heap V.
Import CoGroupByKey.

Lemma enumerate_NoDup {A} (l : list A) : NoDup (enumerate l).*1.
Proof.
  rewrite enumerate_fst. apply NoDup_fmap_2; [|apply NoDup_seq].
  intros i j [= ?]. lia.
Qed.

Lemma lookup_enumerate_map {A} (l : list A) (i : nat) :
  (list_to_map (enumerate l) : gmap tag A) !! TagInt (Z.of_nat i) = l !! i.
Proof.
  pose proof (enumerate_NoDup l) as Hnd.
  destruct (l !! i) as [x|] eqn:Hl.
  - apply elem_of_list_to_map; [done|].
    apply (list_elem_of_lookup_2 _ i). by rewrite enumerate_lookup, Hl.
  - destruct (list_to_map _ !! _) as [x|] eqn:Hm; [|done].
    apply elem_of_list_to_map in Hm; [|done].
    apply list_elem_of_lookup in Hm as [j Hj].
    rewrite enumerate_lookup in Hj.
    destruct (l !! j) as [y|] eqn:Hy; [|done].
    injection Hj as Hij <-. assert (j = i) as -> by lia. congruence.
Qed.

Lemma inputs_of_enumerate_map {T} (l : list (pvalue T)) :
  inputs_of (Mapping (list_to_map (enumerate l))) ≡ₚ l.
Proof.
  unfold inputs_of. simpl.
  rewrite map_to_list_to_map by apply enumerate_NoDup.
  by rewrite enumerate_snd.
Qed.

(** X5. A sequence of inputs that [expand] accepts and the mapping of
    the same inputs under their positions give the same co-group: the same keys, and under
    every position the same values in the same order. *)
Theorem expand_mapping_as_sequence self (l : list (pvalue (K * V))) h :
  inputs_ok self (Sequence l) →
  one_pipeline self (Sequence l) →
  ∃ rows_s hs rows_m hm,
    exec (expand self (Sequence l)) h = Ok (rows_s, hs)
    ∧ exec (expand self (Mapping (list_to_map (enumerate l)))) h
      = Ok (rows_m, hm)
    ∧ Keys rows_s ≡ₚ Keys rows_m
    ∧ ∀ k cs cm (i : nat),
        (k, cs) ∈ rows_s → (k, cm) ∈ rows_m →
        slot (snapshot hs cs) (TagInt (Z.of_nat i))
        = slot (snapshot hm cm) (TagInt (Z.of_nat i)).
Proof.
  intros Hok Hone. set (m := list_to_map (enumerate l) : gmap tag _).
  assert (inputs_ok self (Mapping m)) as Hok'.
  { unfold inputs_ok, m. by rewrite inputs_of_enumerate_map. }
  assert (one_pipeline self (Mapping m)) as Hone'.
  { destruct Hone as (p & Hall & Hnil). exists p.
    pose proof (inputs_of_enumerate_map l) as Hperm. fold m in Hperm.
    split; [by rewrite Hperm|].
    intros Hempty. rewrite Hempty in Hperm. apply Hnil.
    symmetry. by apply Permutation_nil_l. }
  destruct (expand_Ok self _ h Hok Hone)
    as (rows_s & exts & Hruns & Hnds & Hkeyss & Hvals & _).
  destruct (expand_Ok self _ h Hok' Hone')
    as (rows_m & extm & Hrunm & Hndm & Hkeysm & Hvalm & _).
  exists rows_s, (h ++ exts), rows_m, (h ++ extm).
  split; [done|]. split; [done|]. split.
  - apply NoDup_Permutation; [done|done|]. intros k.
    change (Keys ?rows) with rows.*1. rewrite Hkeyss, Hkeysm.
    unfold input_keys, m. by rewrite inputs_of_enumerate_map.
  - intros k cs cm i Hs Hm.
    rewrite Forall_forall in Hvals, Hvalm.
    specialize (Hvals _ Hs). specialize (Hvalm _ Hm).
    cbn [fst snd] in Hvals, Hvalm.
    rewrite Hvals, Hvalm, !slot_cogroup_value. f_equal. simpl.
    rewrite (proj2 (Z.leb_le 0 (Z.of_nat i))) by lia.
    rewrite Nat2Z.id. symmetry. apply lookup_enumerate_map.
Qed.

(** X10. The co-group of a single input is its grouping by key: the
    rows of [expand] on a one-element sequence are, in some order, the
    groups GroupByKey makes of that input, each wrapped in a tuple of
    one slot. *)
Theorem expand_single_input self (pcoll : pvalue (K * V)) h :
  inputs_ok self (Sequence [pcoll]) →
  ∃ rows h',
    exec (expand self (Sequence [pcoll])) h = Ok (rows, h')
    ∧ read_rows h' rows
      ≡ₚ (λ g, (g.1, VTuple [g.2])) <$> GroupByKey (elements_of pcoll).
Proof.
  intros Hok.
  assert (one_pipeline self (Sequence [pcoll])) as Hone.
  { destruct pcoll as [pc|]; [|by apply Forall_cons in Hok as [[] _]].
    exists (PCollection.pipeline pc). split; [by repeat constructor|done]. }
  destruct (expand_rows self _ h Hok Hone) as (rows & ext & Hrun & _ & Hrows).
  exists rows, (h ++ ext). split; [done|]. rewrite Hrows. simpl.
  unfold tagged_union, Map. simpl. rewrite app_nil_r.
  change (map ?f ?l) with (f <$> l).
  rewrite (list_fmap_ext
             (λ key_value : K * V,
                _pair_tag_with_value key_value (TagInt (Z.of_nat 0)))
             (λ kv, (kv.1, (TagInt (Z.of_nat 0), kv.2))) (elements_of pcoll))
    by (by intros ? [] ?).
  rewrite (GroupByKey_fmap (λ v : V, (TagInt (Z.of_nat 0), v))).
  rewrite <-list_fmap_compose.
  destruct (GroupByKey_spec (elements_of pcoll)) as (_ & _ & Hvals).
  apply reflexive_eq.
  apply list_fmap_ext. intros i [k vs] Hin%list_elem_of_lookup_2. simpl.
  by rewrite (Hvals _ _ Hin).
Qed.
End Conventions.

(** ** RemoveDuplicates, once more *)

Section RemoveDuplicatesTwice.
Context {T : Type} `{EqDecision T}.

(** X9. Up to the order of the elements, RemoveDuplicates leaves a
    collection without duplicates as it is, and so does nothing when
    applied a second time. *)
Theorem RemoveDuplicates_idempotent (pcoll : list T) :
  RemoveDuplicates (RemoveDuplicates pcoll) ≡ₚ RemoveDuplicates pcoll
  ∧ (NoDup pcoll → RemoveDuplicates pcoll ≡ₚ pcoll).
Proof.
  assert (∀ l : list T, NoDup (RemoveDuplicates l)
                        ∧ ∀ x, x ∈ RemoveDuplicates l ↔ x ∈ l) as Hrd.
  { intros l. rewrite RemoveDuplicates_groups.
    destruct (GroupByKey_spec (Map (λ v, (v, tt)) l)) as (Hnd & Hkeys & _).
    split; [done|]. intros x. rewrite Hkeys.
    unfold Map. change (map ?f ?l) with (f <$> l).
    by rewrite <-list_fmap_compose, list_fmap_id. }
  assert (∀ l : list T, NoDup l → RemoveDuplicates l ≡ₚ l) as Hfix.
  { intros l Hnd. apply NoDup_Permutation; [apply Hrd|done|apply Hrd]. }
  split; [|apply Hfix]. apply Hfix, Hrd.
Qed.
End RemoveDuplicatesTwice.

(** ** The further properties at concrete inputs *)

Section MoreWitnesses.
Import CoGroupByKey Examples MoreExamples.

Lemma merge_first_failure_witness :
  Forall (λ tv : tag * string,
            lookup_failure (DictOf [TagStr "a"; TagStr "b"]) tv.1 = None)
         [(TagStr "a", "x")]
  ∧ lookup_failure (DictOf [TagStr "a"; TagStr "b"]) (TagStr "c")
    = Some KeyError
  ∧ exec (merge_with (DictOf [TagStr "a"; TagStr "b"]) (1%Z, stray_row)) []
    = Raise KeyError.
Proof.
  assert (Forall (λ tv : tag * string,
                    lookup_failure (DictOf [TagStr "a"; TagStr "b"]) tv.1
                    = None) [(TagStr "a", "x")]) as Hpre
    by (repeat constructor).
  assert (lookup_failure (DictOf [TagStr "a"; TagStr "b"]) (TagStr "c")
          = Some KeyError) as Htg by reflexivity.
  split; [exact Hpre|]. split; [exact Htg|].
  exact (merge_first_failure (DictOf [TagStr "a"; TagStr "b"]) 1%Z
           [(TagStr "a", "x")] (TagStr "c") "y" [(TagStr "a", "z")]
           KeyError [] Hpre Htg).
Defined.

Lemma merge_tuple_both_ends_witness :
  Forall (λ tv : tag * string, lookup_failure (TupleOf 2) tv.1 = None)
         both_ends_row
  ∧ ∃ c h',
      exec (_merge_tagged_vals_under_key (1%Z, both_ends_row)
              result_ctor_tuple 2) [] = Ok ((1%Z, c), h')
      ∧ snapshot h' c = VTuple [["x"; "w"]; ["y"; "z"]].
Proof.
  assert (Forall (λ tv : tag * string, lookup_failure (TupleOf 2) tv.1 = None)
                 both_ends_row) as Hall by (repeat constructor).
  split; [exact Hall|].
  exact (merge_tuple_both_ends 1%Z both_ends_row 2 [] Hall).
Defined.

Lemma expand_heap_frame_witness :
  inputs_ok self_none keys_input
  ∧ one_pipeline self_none keys_input
  ∧ ∃ rows ext,
      exec (expand self_none keys_input) [["old"]] = Ok (rows, [["old"]] ++ ext)
      ∧ length ext = length rows * length (inputs_of keys_input)
      ∧ Forall (λ l, length [["old"]] ≤ l < length [["old"]] + length ext)
               (rows.*2 ≫= container_locs)
      ∧ NoDup (rows.*2 ≫= container_locs).
Proof.
  assert (inputs_ok self_none keys_input) as Hok
    by (unfold inputs_ok; simpl; repeat constructor; discriminate).
  assert (one_pipeline self_none keys_input) as Hone
    by (exists 0; split; [repeat constructor|discriminate]).
  split; [exact Hok|]. split; [exact Hone|].
  exact (expand_heap_frame self_none keys_input [["old"]] Hok Hone).
Defined.

Lemma expand_mapping_as_sequence_witness :
  inputs_ok self_none seq_input
  ∧ one_pipeline self_none seq_input
  ∧ ∃ rows_s hs rows_m hm,
      exec (expand self_none seq_input) [] = Ok (rows_s, hs)
      ∧ exec (expand self_none
                (Mapping (list_to_map
                   (enumerate [pc 0 [(1%Z, "x")];
                               pc 0 [(1%Z, "y"); (1%Z, "z")]])))) []
        = Ok (rows_m, hm)
      ∧ Keys rows_s ≡ₚ Keys rows_m
      ∧ ∀ k cs cm (i : nat),
          (k, cs) ∈ rows_s → (k, cm) ∈ rows_m →
          slot (snapshot hs cs) (TagInt (Z.of_nat i))
          = slot (snapshot hm cm) (TagInt (Z.of_nat i)).
Proof.
  assert (inputs_ok self_none seq_input) as Hok
    by (unfold inputs_ok; simpl; repeat constructor; discriminate).
  assert (one_pipeline self_none seq_input) as Hone
    by (exists 0; split; [repeat constructor|discriminate]).
  split; [exact Hok|]. split; [exact Hone|].
  exact (expand_mapping_as_sequence self_none _ [] Hok Hone).
Defined.

Lemma expand_conserves_values_witness :
  inputs_ok self_none keys_input
  ∧ one_pipeline self_none keys_input
  ∧ ∃ rows h',
      exec (expand self_none keys_input) [] = Ok (rows, h')
      ∧ ∀ tg pcoll, input_at keys_input tg = Some pcoll →
          read_rows h' rows ≫= (λ row, default [] (slot row.2 tg))
          ≡ₚ (elements_of pcoll).*2.
Proof.
  assert (inputs_ok self_none keys_input) as Hok
    by (unfold inputs_ok; simpl; repeat constructor; discriminate).
  assert (one_pipeline self_none keys_input) as Hone
    by (exists 0; split; [repeat constructor|discriminate]).
  split; [exact Hok|]. split; [exact Hone|].
  exact (expand_conserves_values self_none keys_input [] Hok Hone).
Defined.

Lemma merge_conserves_values_witness :
  Forall (λ tv : tag * string,
            valid_tag (DictOf [TagStr "a"; TagStr "b"]) tv.1)
         [(TagStr "b", "y"); (TagStr "a", "x"); (TagStr "b", "z")]
  ∧ ∃ c h',
      exec (merge_with (DictOf [TagStr "a"; TagStr "b"])
              (1%Z, [(TagStr "b", "y"); (TagStr "a", "x"); (TagStr "b", "z")]))
           []
      = Ok ((1%Z, c), h')
      ∧ concat (slots (snapshot h' c)) ≡ₚ ["y"; "x"; "z"].
Proof.
  assert (Forall (λ tv : tag * string,
                    valid_tag (DictOf [TagStr "a"; TagStr "b"]) tv.1)
                 [(TagStr "b", "y"); (TagStr "a", "x"); (TagStr "b", "z")])
    as Hall by (repeat constructor; simpl; set_solver).
  split; [exact Hall|].
  exact (merge_conserves_values _ 1%Z _ [] Hall).
Defined.

Lemma expand_keys_RemoveDuplicates_witness :
  inputs_ok self_none keys_input
  ∧ one_pipeline self_none keys_input
  ∧ ∃ rows h',
      exec (expand self_none keys_input) [] = Ok (rows, h')
      ∧ Keys rows ≡ₚ RemoveDuplicates (input_keys keys_input).
Proof.
  assert (inputs_ok self_none keys_input) as Hok
    by (unfold inputs_ok; simpl; repeat constructor; discriminate).
  assert (one_pipeline self_none keys_input) as Hone
    by (exists 0; split; [repeat constructor|discriminate]).
  split; [exact Hok|]. split; [exact Hone|].
  exact (expand_keys_RemoveDuplicates self_none keys_input [] Hok Hone).
Defined.

Lemma expand_single_input_witness :
  inputs_ok self_none (Sequence [one_input])
  ∧ ∃ rows h',
      exec (expand self_none (Sequence [one_input])) [] = Ok (rows, h')
      ∧ read_rows h' rows
        ≡ₚ (λ g, (g.1, VTuple [g.2])) <$> GroupByKey (elements_of one_input).
Proof.
  assert (inputs_ok self_none (Sequence [one_input])) as Hok
    by (unfold inputs_ok; simpl; repeat constructor; discriminate).
  split; [exact Hok|].
  exact (expand_single_input self_none one_input [] Hok).
Defined.
End MoreWitnesses.
